(** * smash-ranks: the document model of [model.py]

    A shallow embedding of the documents declared in [model.py] and of the
    methods that carry logic: [Match.get_opposing_player_id],
    [Player.post_init], [Tournament.replace_player],
    [Tournament.from_pending_tournament],
    [PendingTournament.set_alias_id_mapping] and
    [PendingTournament.delete_alias_id_mapping].

    Conventions.
    - A document is a record with one field per entry of its [fields] list.
      A field that the code itself tests for [None]
      ([PendingTournament.alias_to_id_map], [Player.merge_children],
      [AliasMapping.player_id]) or that is an optional scalar is an [option];
      the other list fields hold lists.
    - A method that mutates [self] is a computation in the monad [M] below,
      whose state is the receiver: it yields a value or raises, always
      together with the receiver as the call left it and with what the call
      printed.
    - Python's [dict] is a [gmap]; [list.remove], [list.append], [in] and the
      truth value of a list are written out in [Py].
    - Two documents are equal when their fields are, and every element of a
      list field is an object of its own. The one list that two fields share,
      [players] and [orig_ids] of a promoted tournament, is modelled as
      shared.
    - A float is a binary64 value, as Python's is.
    - What [model.py] calls but does not define is modelled from the spec
      and marked so: the document constructor of [orm] with its validation,
      and the rating type of the rating library.
    - The documents without methods ([RankingEntry], [Ranking], [Region],
      [User], [Merge], [Session]) are left out. *)

From Stdlib Require Import Floats.
From stdpp Require Import base option list strings gmap.

Open Scope string_scope.
Open Scope list_scope.

(** ** Identifiers *)

(** A [bson.objectid.ObjectId] is a 12-byte value; the model only ever
    compares two of them for equality. *)
Definition ObjectId : Type := N.

#[global] Instance ObjectId_eq_dec : EqDecision ObjectId := N.eq_dec.

(** A [datetime] is only stored and copied. *)
Definition datetime : Type := Z.

(** ** Python built-ins used by the methods *)

Module Py.

(** [not l] for a list-valued field that may be [None]. *)
Definition falsy {A} (l : option (list A)) : bool :=
  match l with
  | None | Some [] => true
  | Some (_ :: _) => false
  end.

(** [x in l]. *)
Definition contains `{EqDecision A} (x : A) (l : list A) : bool :=
  bool_decide (x ∈ l).

(** [l.remove(x)]: drops the first element equal to [x]; [None] stands
    for the [ValueError] raised when there is none. *)
Fixpoint remove `{EqDecision A} (x : A) (l : list A) : option (list A) :=
  match l with
  | [] => None
  | y :: l' => if decide (y = x) then Some l' else cons y <$> remove x l'
  end.

(** [l.append(x)]. *)
Definition append {A} (l : list A) (x : A) : list A := l ++ [x].

(** [dict(pairs)]: the pairs are stored in order, so that for a repeated
    key the last pair stays. *)
Definition dict `{Countable K} {V} (pairs : list (K * V)) : gmap K V :=
  foldl (fun d kv => <[kv.1 := kv.2]> d) ∅ pairs.

(** The loop [for x in l: if P x: ... return]: the first position whose
    element passes the test, with that element. *)
Definition first_where {A} (P : A -> Prop) `{forall x, Decision (P x)}
    (l : list A) : option (nat * A) :=
  list_find P l.

End Py.

(** ** Embedded documents *)

Module AliasMapping.
Record t : Type := Build
  { player_id : option ObjectId;
    player_alias : string }.

Definition with_player_id (v : option ObjectId) (self : t) : t :=
  {| player_id := v; player_alias := player_alias self |}.
Definition with_player_alias (v : string) (self : t) : t :=
  {| player_id := player_id self; player_alias := v |}.

#[global] Instance eq_dec : EqDecision t.
Proof. solve_decision. Defined.
End AliasMapping.

Module AliasMatch.
Record t : Type := Build
  { winner : string;
    loser : string }.
End AliasMatch.

Module Match.
Record t : Type := Build
  { winner : ObjectId;
    loser : ObjectId }.

Definition with_winner (v : ObjectId) (self : t) : t :=
  {| winner := v; loser := loser self |}.
Definition with_loser (v : ObjectId) (self : t) : t :=
  {| winner := winner self; loser := v |}.

Definition contains_players (self : t) (player1 player2 : ObjectId) : bool :=
  (bool_decide (winner self = player1) && bool_decide (loser self = player2))
  || (bool_decide (winner self = player2) && bool_decide (loser self = player1)).

Definition contains_player (self : t) (player_id : ObjectId) : bool :=
  bool_decide (winner self = player_id) || bool_decide (loser self = player_id).

Definition did_player_win (self : t) (player_id : ObjectId) : bool :=
  bool_decide (winner self = player_id).

Definition get_opposing_player_id (self : t) (player_id : ObjectId)
    : option ObjectId :=
  if decide (winner self = player_id) then Some (loser self)
  else if decide (loser self = player_id) then Some (winner self)
  else None.
End Match.

(** ** Exceptions, output and the method monad *)

Inductive exn : Type :=
  | TypeError_None_player
      (* "player_to_remove and player_to_add cannot be None!" *)
  | TypeError_not_iterable
      (* iterating over None *)
  | ValueError_no_id (alias : string)
      (alias_to_id_map : list (string * ObjectId))
      (* 'Alias %s has no ID in map\n: %s' % (alias, alias_to_id_map); the
         dict is given by the pairs it was built from, in their order, which
         fix both what it holds and the order in which it prints *)
  | ValueError_not_in_list
      (* list.remove(x): x not in list *)
  | ValidationError (field value : string)
      (* a document constructor refusing the value of a field *)
  | ValueError_sigma_zero
      (* trueskill: 'sigma**2 should be greater than 0' *)
  | OverflowError
      (* a float power whose result is out of range *)
  | ValueError_math_domain.
      (* math.sqrt of a negative number *)

Inductive outcome (A : Type) : Type :=
  | Return (a : A)
  | Raise (e : exn).
Arguments Return {A} a.
Arguments Raise {A} e.

(** A line written by a [print] statement, with the values it formats. *)
Inductive line : Type :=
  | Line_not_in_tournament (player_id : ObjectId)
      (* "Player with id %s is not in this tournament. Ignoring." *)
  | Line_pending (players : list string) (matches : list AliasMatch.t).
      (* print pending_tournament.players, pending_tournament.matches *)

Definition M (St A : Type) : Type := St -> outcome A * St * list line.

Definition ret {St A} (a : A) : M St A := fun s => (Return a, s, []).

Definition bind {St A B} (m : M St A) (k : A -> M St B) : M St B :=
  fun s =>
    match m s with
    | (Return a, s1, out1) =>
        match k a s1 with
        | (r, s2, out2) => (r, s2, out1 ++ out2)
        end
    | (Raise e, s1, out1) => (Raise e, s1, out1)
    end.

Definition raise {St A} (e : exn) : M St A := fun s => (Raise e, s, []).
Definition get {St} : M St St := fun s => (Return s, s, []).
Definition put {St} (s : St) : M St unit := fun _ => (Return tt, s, []).
Definition print {St} (l : line) : M St unit := fun s => (Return tt, s, [l]).

Declare Scope py_scope.
Delimit Scope py_scope with py.
Notation "x <- m ;; k" := (bind m (fun x => k))
  (at level 100, m at next level, right associativity) : py_scope.
Notation "m ;; k" := (bind m (fun _ => k))
  (at level 100, right associativity) : py_scope.
Open Scope py_scope.

(** [[f(x) for x in l]] and a [for] loop that builds a list: the elements
    are visited in order and the first exception ends the loop. *)
Fixpoint for_each {St A B} (f : A -> M St B) (l : list A) : M St (list B) :=
  match l with
  | [] => ret []
  | x :: l' => y <- f x ;; ys <- for_each f l' ;; ret (y :: ys)
  end.

(** What a call [m] on the receiver [s] yields, the receiver as the call
    leaves it, and what the call prints. *)
Definition result {St A} (m : M St A) (s : St) : outcome A := (m s).1.1.
Definition after {St A} (m : M St A) (s : St) : St := (m s).1.2.
Definition printed {St A} (m : M St A) (s : St) : list line := (m s).2.

(** Iterating over a list-valued field: [None] is not iterable. *)
Definition iter {St A} (l : option (list A)) : M St (list A) :=
  match l with
  | Some l => ret l
  | None => raise TypeError_not_iterable
  end.

(** ** Ratings *)

(** Modelled from the spec: the rating type of the rating library, which
    [model.py] imports as [trueskill] and which the spec names as a
    collaborator exposing "a rating type with mean/uncertainty fields". Its
    arithmetic is the one the library documents for its Gaussian: a rating
    keeps the precision [pi = sigma ** -2] and the precision-adjusted mean
    [tau = pi * mu], and reports [mu = tau / pi] and [sigma = sqrt(1 / pi)]
    from them. *)
Module Trueskill.
Record t : Type := Build
  { pi : float;
    tau : float }.

(** [x ** -2.] on floats: the binary64 value nearest to [1 / x^2], the
    square being taken exactly. *)
Definition pow_neg2 (x : float) : float :=
  match Prim2SF x with
  | S754_finite _ m e =>
      SF2Prim (SFdiv prec emax (S754_finite false 1 0)
                 (S754_finite false (m * m) (2 * e)))
  | S754_zero _ => infinity
  | S754_infinity _ => 0
  | S754_nan => nan
  end.

(** The truth value of a float: every float but the two zeros. *)
Definition truthy (x : float) : bool := negb (PrimFloat.eqb x 0).

(** [trueskill.Rating(mu=mu, sigma=sigma)]. *)
Definition new (mu sigma : float) : outcome t :=
  if PrimFloat.eqb sigma 0 then Raise ValueError_sigma_zero
  else
    let pi := pow_neg2 sigma in
    if is_infinity pi then Raise OverflowError
    else Return {| pi := pi; tau := PrimFloat.mul pi mu |}.

(** The property [mu]: [self.pi and self.tau / self.pi]. *)
Definition mu (self : t) : float :=
  if truthy (pi self) then PrimFloat.div (tau self) (pi self) else pi self.

(** The property [sigma]: [math.sqrt(1 / self.pi) if self.pi else inf]. *)
Definition sigma (self : t) : outcome float :=
  if truthy (pi self) then
    let v := PrimFloat.div 1 (pi self) in
    if PrimFloat.ltb v 0 then Raise ValueError_math_domain
    else Return (PrimFloat.sqrt v)
  else Return infinity.
End Trueskill.

Module Rating.
Record t : Type := Build
  { mu : float;
    sigma : float }.

(** The declared defaults, [25.] and [25. / 3]. *)
Definition default : t := {| mu := 25; sigma := 25 / 3 |}.

Definition trueskill_rating (self : t) : outcome Trueskill.t :=
  Trueskill.new (mu self) (sigma self).

Definition from_trueskill (trueskill_rating : Trueskill.t) : outcome t :=
  let mu := Trueskill.mu trueskill_rating in
  match Trueskill.sigma trueskill_rating with
  | Return sigma => Return {| mu := mu; sigma := sigma |}
  | Raise e => Raise e
  end.
End Rating.

(** ** Collection documents *)

Module Player.
Record t : Type := Build
  { id : ObjectId;
    name : string;
    aliases : list string;
    ratings : gmap string Rating.t;
    regions : list string;
    merged : bool;
    merge_parent : option ObjectId;
    merge_children : option (list ObjectId) }.

Definition with_merge_children (v : option (list ObjectId)) (self : t) : t :=
  {| id := id self; name := name self; aliases := aliases self;
     ratings := ratings self; regions := regions self; merged := merged self;
     merge_parent := merge_parent self; merge_children := v |}.

Definition post_init : M t unit :=
  self <- get ;;
  if Py.falsy (merge_children self)
  then put (with_merge_children (Some [id self]) self)
  else ret tt.

(** Modelled from the spec: the constructor of [orm.Document], which is not
    part of [model.py]. The keyword arguments become the fields (a field
    that is not passed takes its declared default, [None] for
    [merge_children]) and then [post_init] runs; [new] gives the object the
    constructor returns. *)
Definition new (kwargs : t) : t :=
  match post_init kwargs with
  | (_, self, _) => self
  end.

(** [create_with_default_values]; [fresh] is the id that [ObjectId()]
    generates and [lower_name] is [name.lower()]. *)
Definition create_with_default_values (fresh : ObjectId)
    (name lower_name region : string) : t :=
  new {| id := fresh; name := name; aliases := [lower_name];
         ratings := ∅; regions := [region]; merged := false;
         merge_parent := None; merge_children := None |}.
End Player.

Module PendingTournament.
Record t : Type := Build
  { id : ObjectId;
    name : string;
    type : string;
    date : option datetime;
    regions : list string;
    url : option string;
    raw : option string;
    matches : list AliasMatch.t;
    players : list string;
    alias_to_id_map : option (list AliasMapping.t) }.

Definition with_alias_to_id_map (v : option (list AliasMapping.t)) (self : t)
    : t :=
  {| id := id self; name := name self; type := type self; date := date self;
     regions := regions self; url := url self; raw := raw self;
     matches := matches self; players := players self;
     alias_to_id_map := v |}.

(** [if self.alias_to_id_map is None: self.alias_to_id_map = []]. *)
Definition init_alias_to_id_map : M t unit :=
  self <- get ;;
  match alias_to_id_map self with
  | None => put (with_alias_to_id_map (Some []) self)
  | Some _ => ret tt
  end.

(** The loop assigns to the fields of the first mapping for [alias], which
    sits in the list, and returns; past the loop a new mapping is appended. *)
Definition set_alias_id_mapping (alias : string) (id : option ObjectId)
    : M t unit :=
  init_alias_to_id_map ;;
  self <- get ;;
  l <- iter (alias_to_id_map self) ;;
  match Py.first_where (fun mapping => AliasMapping.player_alias mapping = alias) l with
  | Some (i, mapping) =>
      let mapping := AliasMapping.with_player_alias alias mapping in
      let mapping := AliasMapping.with_player_id id mapping in
      put (with_alias_to_id_map (Some (<[i := mapping]> l)) self)
  | None =>
      put (with_alias_to_id_map
             (Some (Py.append l {| AliasMapping.player_alias := alias;
                                   AliasMapping.player_id := id |})) self)
  end.

(** The method returns the mapping it removed; falling off the end of the
    loop returns [None]. *)
Definition delete_alias_id_mapping (alias : string)
    : M t (option AliasMapping.t) :=
  init_alias_to_id_map ;;
  self <- get ;;
  l <- iter (alias_to_id_map self) ;;
  match Py.first_where (fun mapping => AliasMapping.player_alias mapping = alias) l with
  | Some (_, mapping) =>
      match Py.remove mapping l with
      | Some l' =>
          put (with_alias_to_id_map (Some l') self) ;;
          ret (Some mapping)
      | None => raise ValueError_not_in_list
      end
  | None => ret None
  end.

(** [from_scraper]; [fresh] is the id that [ObjectId()] generates and the
    other arguments are what the scraper's getters return.
    [alias_to_id_map] is not passed to the constructor. *)
Definition from_scraper (fresh : ObjectId) (type : string)
    (get_name : string) (get_date : option datetime)
    (get_url get_raw : option string) (get_players : list string)
    (get_matches : list AliasMatch.t) (region_id : string) : t :=
  {| id := fresh; name := get_name; type := type; date := get_date;
     regions := [region_id]; url := get_url; raw := get_raw;
     matches := get_matches; players := get_players;
     alias_to_id_map := None |}.
End PendingTournament.

Definition SOURCE_TYPE_CHOICES : list string :=
  ["tio"; "challonge"; "smashgg"; "other"].

(** Modelled from the spec: [orm.validate_choices], which is not part of
    [model.py]: the validator that accepts the values of a closed list. *)
Definition validate_choices (choices : list string) (value : string) : bool :=
  bool_decide (value ∈ choices).

(** What the field [orig_ids] holds: the very list object that [players]
    holds, as in the tournament that [from_pending_tournament] builds with
    [players=players, orig_ids=players], or a list of its own, as in a
    tournament read back from the store. *)
Inductive orig_ids_object : Type :=
  | Shared_with_players
  | Own_list (l : list ObjectId).

Module Tournament.
Record t : Type := Build
  { id : ObjectId;
    name : string;
    type : string;
    date : option datetime;
    regions : list string;
    url : option string;
    raw : option string;
    matches : list Match.t;
    players : list ObjectId;
    orig_ids_object : orig_ids_object }.

(** Reading [self.orig_ids]. *)
Definition orig_ids (self : t) : list ObjectId :=
  match orig_ids_object self with
  | Shared_with_players => players self
  | Own_list l => l
  end.

(** Changing the list that [players] holds, in place: a shared [orig_ids]
    shows the change. *)
Definition with_players (v : list ObjectId) (self : t) : t :=
  {| id := id self; name := name self; type := type self; date := date self;
     regions := regions self; url := url self; raw := raw self;
     matches := matches self; players := v;
     orig_ids_object := orig_ids_object self |}.

Definition with_matches (v : list Match.t) (self : t) : t :=
  {| id := id self; name := name self; type := type self; date := date self;
     regions := regions self; url := url self; raw := raw self;
     matches := v; players := players self;
     orig_ids_object := orig_ids_object self |}.

(** Modelled from the spec: the constructor of [orm.Document], which is not
    part of [model.py], for a tournament. The keyword arguments become the
    fields, and the validators declared in [fields] run at construction: the
    value of [type] has to be one of [SOURCE_TYPE_CHOICES], or the
    construction fails with a validation error. The required fields [id],
    [name] and [type] are always passed. *)
Definition new {St} (kwargs : t) : M St t :=
  if validate_choices SOURCE_TYPE_CHOICES (type kwargs)
  then ret kwargs
  else raise (ValidationError "type" (type kwargs)).

(** The body of the loop over [self.matches], for one match. *)
Definition replace_in_match (player_to_remove_id player_to_add_id : ObjectId)
    (m : Match.t) : Match.t :=
  let m :=
    if decide (Match.winner m = player_to_remove_id)
    then Match.with_winner player_to_add_id m else m in
  if decide (Match.loser m = player_to_remove_id)
  then Match.with_loser player_to_add_id m else m.

Definition replace_player (player_to_remove player_to_add : option Player.t)
    : M t unit :=
  match player_to_remove, player_to_add with
  | Some player_to_remove, Some player_to_add =>
      let player_to_remove_id := Player.id player_to_remove in
      let player_to_add_id := Player.id player_to_add in
      self <- get ;;
      if negb (Py.contains player_to_remove_id (players self))
      then print (Line_not_in_tournament player_to_remove_id)
      else
        match Py.remove player_to_remove_id (players self) with
        | None => raise ValueError_not_in_list
        | Some players' =>
            put (with_players (Py.append players' player_to_add_id) self) ;;
            self <- get ;;
            put (with_matches
                   (replace_in_match player_to_remove_id player_to_add_id
                      <$> matches self) self)
        end
  | _, _ => raise TypeError_None_player
  end.

(** The dict [alias_to_id_map] is passed as the pairs it was built from;
    [Py.dict] gives what it holds. *)
Definition _get_player_id_from_map_or_throw {St}
    (alias_to_id_map : list (string * ObjectId)) (alias : string)
    : M St ObjectId :=
  match Py.dict alias_to_id_map !! alias with
  | Some player_id => ret player_id
  | None => raise (ValueError_no_id alias alias_to_id_map)
  end.

(** The pairs [(entry.player_alias, entry.player_id)] of the entries whose
    [player_id] is not [None]. *)
Definition assigned_pairs (entries : list AliasMapping.t)
    : list (string * ObjectId) :=
  omap (fun entry =>
          match AliasMapping.player_id entry with
          | Some player_id => Some (AliasMapping.player_alias entry, player_id)
          | None => None
          end) entries.

(** The body of the loop over [pending_tournament.matches]: the match that
    is appended to [matches]. *)
Definition resolve_match {St} (alias_to_id_map : list (string * ObjectId))
    (am : AliasMatch.t) : M St Match.t :=
  winner <- _get_player_id_from_map_or_throw alias_to_id_map
              (AliasMatch.winner am) ;;
  loser <- _get_player_id_from_map_or_throw alias_to_id_map
             (AliasMatch.loser am) ;;
  ret {| Match.winner := winner; Match.loser := loser |}.

(** The state is the pending tournament that is passed in. The constructor
    [cls(...)] is [new]; [players] and [orig_ids] are given the same list. *)
Definition from_pending_tournament : M PendingTournament.t t :=
  pending_tournament <- get ;;
  entries <- iter (PendingTournament.alias_to_id_map pending_tournament) ;;
  let alias_to_id_map := assigned_pairs entries in
  print (Line_pending (PendingTournament.players pending_tournament)
                      (PendingTournament.matches pending_tournament)) ;;
  players <- for_each (_get_player_id_from_map_or_throw alias_to_id_map)
               (PendingTournament.players pending_tournament) ;;
  matches <- for_each (resolve_match alias_to_id_map)
               (PendingTournament.matches pending_tournament) ;;
  new {| id := PendingTournament.id pending_tournament;
         name := PendingTournament.name pending_tournament;
         type := PendingTournament.type pending_tournament;
         date := PendingTournament.date pending_tournament;
         regions := PendingTournament.regions pending_tournament;
         url := PendingTournament.url pending_tournament;
         raw := PendingTournament.raw pending_tournament;
         matches := matches;
         players := players;
         orig_ids_object := Shared_with_players |}.
End Tournament.

(** ** Vocabulary of the statements *)

(** The mappings of a pending tournament, an absent list holding none. *)
Definition entries (p : PendingTournament.t) : list AliasMapping.t :=
  default [] (PendingTournament.alias_to_id_map p).

(** The aliases that promotion looks up, in the order it looks them up. *)
Definition aliases_of (p : PendingTournament.t) : list string :=
  PendingTournament.players p
  ++ mjoin ((fun am => [AliasMatch.winner am; AliasMatch.loser am])
              <$> PendingTournament.matches p).

(** Some mapping of [l] is for [alias]. *)
Definition has_entry (l : list AliasMapping.t) (alias : string) : Prop :=
  exists mapping, mapping ∈ l /\ AliasMapping.player_alias mapping = alias.

(** Some mapping of [l] is for [alias] and carries an id. *)
Definition has_assigned_id (l : list AliasMapping.t) (alias : string) : Prop :=
  exists player_id, AliasMapping.Build (Some player_id) alias ∈ l.

(** [player_id] is the id of the last mapping of [l] that is for [alias] and
    carries an id. *)
Definition resolves (l : list AliasMapping.t) (alias : string)
    (player_id : ObjectId) : Prop :=
  exists l1 l2,
    l = l1 ++ AliasMapping.Build (Some player_id) alias :: l2
    /\ ~ has_assigned_id l2 alias.

(** At most one mapping per alias. *)
Definition one_entry_per_alias (l : list AliasMapping.t) : Prop :=
  NoDup (AliasMapping.player_alias <$> l).

(** A player document with the given id, as [Player.new] returns it. *)
Definition player_with_id (i : ObjectId) : Player.t :=
  Player.new {| Player.id := i; Player.name := "player"; Player.aliases := [];
                Player.ratings := ∅; Player.regions := [];
                Player.merged := false; Player.merge_parent := None;
                Player.merge_children := None |}.

(** A tournament document with the given players and matches. *)
Definition tournament_of (players : list ObjectId) (matches : list Match.t)
    : Tournament.t :=
  {| Tournament.id := 0%N; Tournament.name := "tournament";
     Tournament.type := "tio"; Tournament.date := None;
     Tournament.regions := []; Tournament.url := None;
     Tournament.raw := None; Tournament.matches := matches;
     Tournament.players := players;
     Tournament.orig_ids_object := Own_list players |}.

(** A pending tournament document with the given players, matches and
    mappings. *)
Definition pending_of (players : list string) (matches : list AliasMatch.t)
    (alias_to_id_map : option (list AliasMapping.t)) : PendingTournament.t :=
  {| PendingTournament.id := 0%N; PendingTournament.name := "pending";
     PendingTournament.type := "tio"; PendingTournament.date := None;
     PendingTournament.regions := []; PendingTournament.url := None;
     PendingTournament.raw := None; PendingTournament.matches := matches;
     PendingTournament.players := players;
     PendingTournament.alias_to_id_map := alias_to_id_map |}.

(** Every winner and loser of a match of [t] is among the players of [t]. *)
Definition participants_listed (t : Tournament.t) : Prop :=
  forall m, m ∈ Tournament.matches t ->
    Match.winner m ∈ Tournament.players t
    /\ Match.loser m ∈ Tournament.players t.

(** The number of matches of [ms] that [p] won, by [did_player_win]. *)
Definition wins (p : ObjectId) (ms : list Match.t) : nat :=
  length (filter (fun m => Match.did_player_win m p = true) ms).

(** The first alias of [aliases] that the dictionary [d] lacks. *)
Fixpoint first_missing (d : gmap string ObjectId) (aliases : list string)
    : option string :=
  match aliases with
  | [] => None
  | alias :: aliases' =>
      match d !! alias with
      | None => Some alias
      | Some _ => first_missing d aliases'
      end
  end.

(** The tournament that has the fields of [p], with every alias replaced by
    what [d] holds for it. *)
Definition promoted (d : gmap string ObjectId) (p : PendingTournament.t)
    : Tournament.t :=
  let id_of alias := default 0%N (d !! alias) in
  {| Tournament.id := PendingTournament.id p;
     Tournament.name := PendingTournament.name p;
     Tournament.type := PendingTournament.type p;
     Tournament.date := PendingTournament.date p;
     Tournament.regions := PendingTournament.regions p;
     Tournament.url := PendingTournament.url p;
     Tournament.raw := PendingTournament.raw p;
     Tournament.matches :=
       (fun am => {| Match.winner := id_of (AliasMatch.winner am);
                     Match.loser := id_of (AliasMatch.loser am) |})
         <$> PendingTournament.matches p;
     Tournament.players := id_of <$> PendingTournament.players p;
     Tournament.orig_ids_object := Shared_with_players |}.

(** * Properties *)

(** ** Match *)

(** C9. [get_opposing_player_id p] is the loser when [p] is the winner, the
    winner when [p] is the loser, and [None] when [p] is neither. *)
Theorem get_opposing_player_id_spec (m : Match.t) (p : ObjectId) :
  (Match.winner m = p ->
     Match.get_opposing_player_id m p = Some (Match.loser m))
  /\ (Match.loser m = p ->
     Match.get_opposing_player_id m p = Some (Match.winner m))
  /\ (Match.winner m <> p -> Match.loser m <> p ->
     Match.get_opposing_player_id m p = None).
Proof.
  unfold Match.get_opposing_player_id.
  repeat split; intros; repeat case_decide; congruence.
Qed.

Lemma get_opposing_player_id_spec_witness :
  Match.get_opposing_player_id (Match.Build 1%N 2%N) 1%N = Some 2%N
  /\ Match.get_opposing_player_id (Match.Build 1%N 2%N) 2%N = Some 1%N
  /\ Match.get_opposing_player_id (Match.Build 1%N 2%N) 3%N = None.
Proof.
  split; [|split].
  - apply (proj1 (get_opposing_player_id_spec (Match.Build 1%N 2%N) 1%N)).
    reflexivity.
  - apply (proj1 (proj2 (get_opposing_player_id_spec (Match.Build 1%N 2%N) 2%N))).
    reflexivity.
  - apply (proj2 (proj2 (get_opposing_player_id_spec (Match.Build 1%N 2%N) 3%N)));
      simpl; lia.
Defined.

(** ** Rating *)

(** [from_trueskill] raises only what reading [sigma] raises, and otherwise
    builds the document from the two floats it reads. *)
Lemma from_trueskill_cases (r : Trueskill.t) :
  (Trueskill.sigma r = Raise ValueError_math_domain
   /\ Rating.from_trueskill r = Raise ValueError_math_domain)
  \/ exists sigma,
       Trueskill.sigma r = Return sigma
       /\ Rating.from_trueskill r
          = Return {| Rating.mu := Trueskill.mu r; Rating.sigma := sigma |}.
Proof.
  unfold Rating.from_trueskill.
  destruct (Trueskill.sigma r) as [sigma | e] eqn:Hsigma; [right; eauto|].
  left. unfold Trueskill.sigma in Hsigma.
  destruct (Trueskill.truthy _); [|done].
  destruct (PrimFloat.ltb _ _); [|done].
  by injection Hsigma as <-.
Qed.

(** C8, as the code has it. [from_trueskill] itself loses nothing: unless
    reading [sigma] fails, which it does only for a negative precision, the
    stored rating holds exactly the [mu] and the [sigma] that the external
    rating reports. [trueskill_rating] then builds the external rating anew
    from these two floats, so its precision is [sigma ** -2] and its
    precision-adjusted mean is that precision times [mu], both rounded; what
    it reports is computed from those. For the rating with the declared
    defaults, [mu = 25.] and [sigma = 25. / 3], the round trip gives back the
    very same external rating and the stored rating is the default one. *)
Theorem from_trueskill_trueskill_rating (r : Trueskill.t) :
  (Trueskill.sigma r = Raise ValueError_math_domain
   /\ Rating.from_trueskill r = Raise ValueError_math_domain)
  \/ exists s,
       Rating.from_trueskill r = Return s
       /\ Rating.mu s = Trueskill.mu r
       /\ Trueskill.sigma r = Return (Rating.sigma s)
       /\ Rating.trueskill_rating s
          = Trueskill.new (Trueskill.mu r) (Rating.sigma s)
       /\ (forall r',
             Rating.trueskill_rating s = Return r' ->
             Trueskill.pi r' = Trueskill.pow_neg2 (Rating.sigma s)
             /\ Trueskill.tau r'
                = PrimFloat.mul (Trueskill.pi r') (Trueskill.mu r))
       /\ (Rating.trueskill_rating Rating.default = Return r ->
           s = Rating.default /\ Rating.trueskill_rating s = Return r).
Proof.
  destruct (from_trueskill_cases r) as [? | (sigma & Hsigma & Hs)]; [by left|].
  right. eexists. split; [exact Hs|]. cbn [Rating.mu Rating.sigma].
  split; [done|]. split; [done|]. split; [done|]. split.
  - unfold Rating.trueskill_rating, Trueskill.new.
    cbn [Rating.mu Rating.sigma]. intros r' Hr'.
    destruct (PrimFloat.eqb sigma 0); [done|].
    destruct (is_infinity _); [done|].
    by injection Hr' as <-.
  - intros Hdefault. vm_compute in Hdefault. injection Hdefault as <-.
    vm_compute in Hsigma. injection Hsigma as <-.
    split; vm_compute; reflexivity.
Qed.

Lemma from_trueskill_trueskill_rating_witness :
  exists r,
    Rating.trueskill_rating Rating.default = Return r
    /\ Rating.from_trueskill r = Return Rating.default.
Proof.
  eexists. split; [vm_compute; reflexivity|].
  match goal with
  | |- Rating.from_trueskill ?r = _ =>
      destruct (from_trueskill_trueskill_rating r)
        as [[_ Hraise] | (s & Hs & _ & _ & _ & _ & Hdefault)]
  end.
  - vm_compute in Hraise. discriminate Hraise.
  - destruct (Hdefault eq_refl) as [<- _]. exact Hs.
Defined.

(** C8 as the specification words it fails on
    [trueskill.Rating(mu=25., sigma=7.75)]: that rating reports
    [sigma = 7.749999999999999], and the rating that comes back from the
    round trip reports [7.749999999999998]. It fails for [mu] on
    [trueskill.Rating(mu=25., sigma=7.)], which reports
    [mu = 25.000000000000004] and comes back reporting [25.]. *)
Lemma from_trueskill_trueskill_rating_inexact :
  (exists r s r',
      Trueskill.new 25 7.75 = Return r
      /\ Rating.from_trueskill r = Return s
      /\ Rating.trueskill_rating s = Return r'
      /\ Trueskill.sigma r = Return 0x1.effffffffffffp+2%float
      /\ Trueskill.sigma r' = Return 0x1.efffffffffffep+2%float)
  /\ (exists r s r',
        Trueskill.new 25 7 = Return r
        /\ Rating.from_trueskill r = Return s
        /\ Rating.trueskill_rating s = Return r'
        /\ Trueskill.mu r = 0x1.9000000000001p+4%float
        /\ Trueskill.mu r' = 25%float)
  /\ PrimFloat.ltb 0x1.efffffffffffep+2 0x1.effffffffffffp+2 = true
  /\ PrimFloat.ltb 25 0x1.9000000000001p+4 = true.
Proof.
  split; [|split; [|split]]; [| |reflexivity|reflexivity];
    do 3 eexists; (split; [vm_compute; reflexivity|]);
    (split; [vm_compute; reflexivity|]); (split; [vm_compute; reflexivity|]);
    split; vm_compute; reflexivity.
Qed.

(** ** Player *)

(** A player built with no [merge_children], or an empty list, leaves the
    constructor with [merge_children = [id]]. *)
Lemma new_initializes_merge_children (kwargs : Player.t) :
  Py.falsy (Player.merge_children kwargs) = true ->
  Player.merge_children (Player.new kwargs) = Some [Player.id kwargs]
  /\ Player.id (Player.new kwargs) = Player.id kwargs.
Proof.
  intros Hfalsy. unfold Player.new, Player.post_init, bind, get. simpl.
  rewrite Hfalsy. simpl. done.
Qed.

(** A non-empty [merge_children] that is passed in is kept as it is. *)
Lemma new_keeps_merge_children (kwargs : Player.t) :
  Py.falsy (Player.merge_children kwargs) = false ->
  Player.new kwargs = kwargs.
Proof.
  intros Hfalsy. unfold Player.new, Player.post_init, bind, get. simpl.
  rewrite Hfalsy. done.
Qed.

Lemma create_with_default_values_merge_children fresh name lower_name region :
  Player.merge_children
    (Player.create_with_default_values fresh name lower_name region)
  = Some [fresh].
Proof. reflexivity. Qed.

(** C7, at the input where the code departs from it: a player constructed
    with id 1 and [merge_children = [2]] comes out of the constructor with
    [merge_children = [2]], which does not contain its id. [post_init] only
    tests whether the list is empty. *)
Theorem post_init_keeps_foreign_merge_children :
  let kwargs :=
    {| Player.id := 1%N; Player.name := "a"; Player.aliases := ["a"];
       Player.ratings := ∅; Player.regions := ["norcal"];
       Player.merged := false; Player.merge_parent := None;
       Player.merge_children := Some [2%N] |} in
  Player.post_init kwargs = (Return tt, kwargs, [])
  /\ Player.merge_children (Player.new kwargs) = Some [2%N]
  /\ Player.id (Player.new kwargs) ∉ [2%N].
Proof.
  simpl. split; [reflexivity|]. split; [reflexivity|].
  rewrite list_elem_of_singleton. discriminate.
Qed.

(** ** Tournament.replace_player *)

(** C10. With [player_to_remove] or [player_to_add] equal to [None],
    [replace_player] raises the [TypeError] and the tournament is what it was
    before the call: players, matches and every other field. *)
Theorem replace_player_None (t : Tournament.t)
    (player_to_remove player_to_add : option Player.t) :
  player_to_remove = None \/ player_to_add = None ->
  Tournament.replace_player player_to_remove player_to_add t
  = (Raise TypeError_None_player, t, []).
Proof.
  intros [-> | ->]; [reflexivity|].
  destruct player_to_remove; reflexivity.
Qed.

Lemma replace_player_None_witness :
  Tournament.replace_player None (Some (player_with_id 4%N))
    (tournament_of [1%N; 2%N; 3%N] [Match.Build 1%N 2%N])
  = (Raise TypeError_None_player,
     tournament_of [1%N; 2%N; 3%N] [Match.Build 1%N 2%N], []).
Proof.
  apply (replace_player_None
           (tournament_of [1%N; 2%N; 3%N] [Match.Build 1%N 2%N])
           None (Some (player_with_id 4%N))).
  left. reflexivity.
Defined.

(** C4. When the id of the player to remove is not in the players list,
    [replace_player] returns without raising, prints its notice and leaves
    the tournament as it was: the players list and the winner and loser of
    every match. *)
Theorem replace_player_absent (t : Tournament.t)
    (player_to_remove player_to_add : Player.t) :
  Player.id player_to_remove ∉ Tournament.players t ->
  Tournament.replace_player (Some player_to_remove) (Some player_to_add) t
  = (Return tt, t, [Line_not_in_tournament (Player.id player_to_remove)]).
Proof.
  intros Habsent. unfold Tournament.replace_player, bind, get, Py.contains.
  simpl. rewrite bool_decide_eq_false_2 by done. reflexivity.
Qed.

Lemma replace_player_absent_witness :
  Tournament.replace_player (Some (player_with_id 7%N))
    (Some (player_with_id 4%N))
    (tournament_of [1%N; 2%N; 3%N] [Match.Build 1%N 2%N])
  = (Return tt, tournament_of [1%N; 2%N; 3%N] [Match.Build 1%N 2%N],
     [Line_not_in_tournament 7%N]).
Proof.
  apply (replace_player_absent
           (tournament_of [1%N; 2%N; 3%N] [Match.Build 1%N 2%N])
           (player_with_id 7%N) (player_with_id 4%N)).
  simpl. rewrite !elem_of_cons, elem_of_nil.
  intros [H | [H | [H | []]]]; discriminate H.
Defined.

(** [list.remove] takes out the first occurrence and nothing else. *)
Lemma remove_first `{EqDecision A} (x : A) (l1 l2 : list A) :
  x ∉ l1 -> Py.remove x (l1 ++ x :: l2) = Some (l1 ++ l2).
Proof.
  induction l1 as [|y l1 IH]; simpl; intros Hnotin.
  - by rewrite decide_True.
  - apply not_elem_of_cons in Hnotin as [Hne Hnotin].
    rewrite decide_False by done. by rewrite IH.
Qed.

Lemma remove_Some `{EqDecision A} (x : A) (l : list A) :
  x ∈ l ->
  exists l1 l2, l = l1 ++ x :: l2 /\ (x ∉ l1) /\ Py.remove x l = Some (l1 ++ l2).
Proof.
  intros Hin. apply list_elem_of_split_l in Hin as (l1 & l2 & -> & Hnotin).
  exists l1, l2. split; [done|]. split; [done|]. by apply remove_first.
Qed.

Lemma remove_None `{EqDecision A} (x : A) (l : list A) :
  x ∉ l -> Py.remove x l = None.
Proof.
  induction l as [|y l IH]; simpl; [done|].
  intros [Hne Hnotin]%not_elem_of_cons.
  rewrite decide_False by done. by rewrite IH.
Qed.

(** What the loop body does to one match. *)
Lemma replace_in_match_fields (r a : ObjectId) (m : Match.t) :
  Match.winner (Tournament.replace_in_match r a m)
  = (if decide (Match.winner m = r) then a else Match.winner m)
  /\ Match.loser (Tournament.replace_in_match r a m)
     = (if decide (Match.loser m = r) then a else Match.loser m).
Proof.
  unfold Tournament.replace_in_match.
  destruct m as [w l]; simpl. repeat case_decide; simpl; done.
Qed.

(** The call on a participant, step by step. *)
Lemma replace_player_run (t : Tournament.t) (r a : Player.t) (l1 l2 : list ObjectId) :
  Tournament.players t = l1 ++ Player.id r :: l2 ->
  Player.id r ∉ l1 ->
  Tournament.replace_player (Some r) (Some a) t
  = (Return tt,
     Tournament.with_matches
       (Tournament.replace_in_match (Player.id r) (Player.id a)
          <$> Tournament.matches t)
       (Tournament.with_players (l1 ++ l2 ++ [Player.id a]) t),
     []).
Proof.
  intros Hplayers Hfirst.
  unfold Tournament.replace_player, bind, get, put, Py.contains, Py.append.
  simpl. rewrite Hplayers.
  rewrite bool_decide_eq_true_2 by (rewrite elem_of_app, elem_of_cons; auto).
  simpl. rewrite remove_first by done. simpl.
  by rewrite <- (assoc_L (++)).
Qed.

(** C3, as the code has it. For players [A, B, C] and the match (A beat B),
    [replace_player(A, D)] gives players [B, C, D] and the match (D beat B).
    In general, when the id to remove is in the players list, its first
    occurrence is taken out of the list and the id to add is appended at the
    end, and in every match a winner or loser equal to the removed id becomes
    the added id, so that no match mentions the removed id any more. *)
Theorem replace_player_present :
  (forall (t : Tournament.t) (r a : Player.t) (B C : ObjectId),
     Tournament.players t = [Player.id r; B; C] ->
     Tournament.matches t = [Match.Build (Player.id r) B] ->
     Player.id r <> B ->
     result (Tournament.replace_player (Some r) (Some a)) t = Return tt
     /\ Tournament.players (after (Tournament.replace_player (Some r) (Some a)) t)
        = [B; C; Player.id a]
     /\ Tournament.matches (after (Tournament.replace_player (Some r) (Some a)) t)
        = [Match.Build (Player.id a) B])
  /\ (forall (t : Tournament.t) (r a : Player.t),
        Player.id r ∈ Tournament.players t ->
        let t' := after (Tournament.replace_player (Some r) (Some a)) t in
        result (Tournament.replace_player (Some r) (Some a)) t = Return tt
        /\ (exists l1 l2,
              Tournament.players t = l1 ++ Player.id r :: l2
              /\ (Player.id r ∉ l1)
              /\ Tournament.players t' = l1 ++ l2 ++ [Player.id a])
        /\ length (Tournament.matches t') = length (Tournament.matches t)
        /\ (forall i m,
              Tournament.matches t !! i = Some m ->
              exists m',
                Tournament.matches t' !! i = Some m'
                /\ Match.winner m'
                   = (if decide (Match.winner m = Player.id r)
                      then Player.id a else Match.winner m)
                /\ Match.loser m'
                   = (if decide (Match.loser m = Player.id r)
                      then Player.id a else Match.loser m))
        /\ (Player.id r <> Player.id a ->
            forall m', m' ∈ Tournament.matches t' ->
              Match.winner m' <> Player.id r /\ Match.loser m' <> Player.id r)).
Proof.
  split.
  - intros t r a B C Hplayers Hmatches Hne.
    unfold result, after.
    rewrite (replace_player_run t r a [] [B; C]) by (done || apply not_elem_of_nil).
    simpl. rewrite Hmatches. simpl.
    unfold Tournament.replace_in_match. simpl.
    destruct (decide (Player.id r = Player.id r)); [simpl|done].
    rewrite decide_False by done. done.
  - intros t r a Hin t'.
    destruct (list_elem_of_split_l _ _ Hin) as (l1 & l2 & Hplayers & Hfirst).
    subst t'. unfold result, after.
    rewrite (replace_player_run t r a l1 l2) by done. simpl.
    split; [done|]. split; [by exists l1, l2|].
    split; [by rewrite length_fmap|]. split.
    + intros i m Hm. eexists. rewrite list_lookup_fmap, Hm. simpl.
      split; [done|]. apply replace_in_match_fields.
    + intros Hne m' (m & -> & _)%list_elem_of_fmap.
      destruct (replace_in_match_fields (Player.id r) (Player.id a) m) as [-> ->].
      split; case_decide; congruence.
Qed.

Lemma replace_player_present_witness :
  result (Tournament.replace_player (Some (player_with_id 1%N))
            (Some (player_with_id 4%N)))
    (tournament_of [1%N; 2%N; 3%N] [Match.Build 1%N 2%N])
  = Return tt
  /\ Tournament.players
    (after (Tournament.replace_player (Some (player_with_id 1%N))
              (Some (player_with_id 4%N)))
       (tournament_of [1%N; 2%N; 3%N] [Match.Build 1%N 2%N]))
  = [2%N; 3%N; 4%N]
  /\ Tournament.matches
       (after (Tournament.replace_player (Some (player_with_id 1%N))
                 (Some (player_with_id 4%N)))
          (tournament_of [1%N; 2%N; 3%N] [Match.Build 1%N 2%N]))
     = [Match.Build 4%N 2%N].
Proof.
  apply (proj1 replace_player_present
           (tournament_of [1%N; 2%N; 3%N] [Match.Build 1%N 2%N])
           (player_with_id 1%N) (player_with_id 4%N) 2%N 3%N);
    [reflexivity | reflexivity | simpl; lia].
Defined.

(** C3 as the specification words it fails on its own example: with
    A, B, C, D = 1, 2, 3, 4 the players list after the call is [2, 3, 4],
    not [4, 2, 3]. *)
Lemma replace_player_moves_to_end :
  Tournament.players
    (after (Tournament.replace_player (Some (player_with_id 1%N))
              (Some (player_with_id 4%N)))
       (tournament_of [1%N; 2%N; 3%N] [Match.Build 1%N 2%N]))
  = [2%N; 3%N; 4%N]
  /\ [2%N; 3%N; 4%N] <> [4%N; 2%N; 3%N].
Proof. split; [reflexivity | discriminate]. Qed.

(** ** PendingTournament: maintenance of the alias mappings *)

Section first_where.
Context {A : Type} (P : A -> Prop) `{!forall x, Decision (P x)}.

Lemma first_where_middle (l1 l2 : list A) (x : A) :
  (forall y, y ∈ l1 -> ~ P y) -> P x ->
  Py.first_where P (l1 ++ x :: l2) = Some (length l1, x).
Proof.
  intros Hbefore Hx. unfold Py.first_where. apply list_find_Some.
  split; [by apply list_lookup_middle|]. split; [done|].
  intros j y Hj Hlt. rewrite lookup_app_l in Hj by done.
  eauto using list_elem_of_lookup_2.
Qed.

Lemma first_where_None (l : list A) :
  (forall y, y ∈ l -> ~ P y) -> Py.first_where P l = None.
Proof.
  intros Hall. unfold Py.first_where. by apply list_find_None, Forall_forall.
Qed.

Lemma first_where_cases (l : list A) :
  (exists l1 x l2,
      l = l1 ++ x :: l2 /\ (forall y, y ∈ l1 -> ~ P y) /\ P x
      /\ Py.first_where P l = Some (length l1, x))
  \/ ((forall y, y ∈ l -> ~ P y) /\ Py.first_where P l = None).
Proof.
  unfold Py.first_where.
  destruct (list_find P l) as [[i x]|] eqn:Hfind.
  - left. apply list_find_Some in Hfind as (Hi & Hx & Hbefore).
    exists (take i l), x, (drop (S i) l).
    assert (length (take i l) = i) as Hlen.
    { apply length_take_le. apply lookup_lt_Some in Hi. lia. }
    split; [by rewrite take_drop_middle|]. split; [|by rewrite Hlen].
    intros y (j & Hj)%list_elem_of_lookup_1.
    assert (j < i) by (apply lookup_lt_Some in Hj; lia).
    rewrite lookup_take_lt in Hj by done. eauto.
  - right. split; [|done]. apply list_find_None in Hfind.
    by apply Forall_forall.
Qed.
End first_where.

Lemma not_has_entry (l : list AliasMapping.t) (alias : string) :
  ~ has_entry l alias <->
  forall mapping, mapping ∈ l -> AliasMapping.player_alias mapping <> alias.
Proof.
  unfold has_entry. split.
  - intros Hnone mapping Hin Halias. apply Hnone. by exists mapping.
  - intros Hall (mapping & Hin & Halias). by apply (Hall mapping).
Qed.

Lemma not_has_entry_nil (alias : string) : ~ has_entry [] alias.
Proof. by intros (mapping & Hin%elem_of_nil & _). Qed.

Lemma entries_with_alias_to_id_map (l : list AliasMapping.t)
    (p : PendingTournament.t) :
  entries (PendingTournament.with_alias_to_id_map (Some l) p) = l.
Proof. reflexivity. Qed.

(** Writing back the list that is there changes nothing. *)
Lemma with_alias_to_id_map_same (l : list AliasMapping.t)
    (p : PendingTournament.t) :
  PendingTournament.alias_to_id_map p = Some l ->
  PendingTournament.with_alias_to_id_map (Some l) p = p.
Proof. destruct p; simpl; by intros ->. Qed.

(** The two ways through [set_alias_id_mapping]. *)
Lemma set_alias_id_mapping_run (p : PendingTournament.t) (alias : string)
    (id : option ObjectId) :
  PendingTournament.set_alias_id_mapping alias id p
  = (Return tt,
     PendingTournament.with_alias_to_id_map
       (Some
          match Py.first_where
                  (fun mapping => AliasMapping.player_alias mapping = alias)
                  (entries p) with
          | Some (i, _) => <[i := AliasMapping.Build id alias]> (entries p)
          | None => entries p ++ [AliasMapping.Build id alias]
          end) p,
     []).
Proof.
  unfold PendingTournament.set_alias_id_mapping,
    PendingTournament.init_alias_to_id_map, entries, bind, get, put, iter.
  destruct p as [? ? ? ? ? ? ? ? ? [l|]]; simpl.
  - destruct (Py.first_where _ l) as [[i mapping]|]; reflexivity.
  - reflexivity.
Qed.

(** The two ways through [delete_alias_id_mapping]. *)
Lemma delete_alias_id_mapping_run (p : PendingTournament.t) (alias : string) :
  PendingTournament.delete_alias_id_mapping alias p
  = match Py.first_where
            (fun mapping => AliasMapping.player_alias mapping = alias)
            (entries p) with
    | Some (_, mapping) =>
        match Py.remove mapping (entries p) with
        | Some l' =>
            (Return (Some mapping),
             PendingTournament.with_alias_to_id_map (Some l') p, [])
        | None =>
            (Raise ValueError_not_in_list,
             PendingTournament.with_alias_to_id_map (Some (entries p)) p, [])
        end
    | None =>
        (Return None,
         PendingTournament.with_alias_to_id_map (Some (entries p)) p, [])
    end.
Proof.
  unfold PendingTournament.delete_alias_id_mapping,
    PendingTournament.init_alias_to_id_map, entries, bind, get, put, iter.
  destruct p as [? ? ? ? ? ? ? ? ? [l|]]; simpl.
  - destruct (Py.first_where _ l) as [[i mapping]|]; [|reflexivity].
    destruct (Py.remove mapping l); reflexivity.
  - reflexivity.
Qed.

Lemma set_alias_id_mapping_existing (p : PendingTournament.t) (alias : string)
    (id : option ObjectId) (l1 l2 : list AliasMapping.t) (mapping : AliasMapping.t) :
  entries p = l1 ++ mapping :: l2 ->
  ~ has_entry l1 alias ->
  AliasMapping.player_alias mapping = alias ->
  PendingTournament.set_alias_id_mapping alias id p
  = (Return tt,
     PendingTournament.with_alias_to_id_map
       (Some (l1 ++ AliasMapping.Build id alias :: l2)) p, []).
Proof.
  intros Hentries Hbefore Halias. rewrite set_alias_id_mapping_run, Hentries.
  rewrite first_where_middle by (done || by apply not_has_entry).
  rewrite insert_app_r_alt by done. by rewrite Nat.sub_diag.
Qed.

Lemma set_alias_id_mapping_new (p : PendingTournament.t) (alias : string)
    (id : option ObjectId) :
  ~ has_entry (entries p) alias ->
  PendingTournament.set_alias_id_mapping alias id p
  = (Return tt,
     PendingTournament.with_alias_to_id_map
       (Some (entries p ++ [AliasMapping.Build id alias])) p, []).
Proof.
  intros Hnone. rewrite set_alias_id_mapping_run.
  by rewrite first_where_None by by apply not_has_entry.
Qed.

Lemma set_alias_id_mapping_one_entry (p : PendingTournament.t) (alias : string)
    (id : option ObjectId) :
  one_entry_per_alias (entries p) ->
  one_entry_per_alias
    (entries (after (PendingTournament.set_alias_id_mapping alias id) p)).
Proof.
  unfold one_entry_per_alias, after. intros Hnodup.
  destruct (first_where_cases
              (fun mapping => AliasMapping.player_alias mapping = alias)
              (entries p))
    as [(l1 & mapping & l2 & Hentries & Hbefore & Halias & _) | [Hnone _]].
  - rewrite (set_alias_id_mapping_existing p alias id l1 l2 mapping)
      by (done || by apply not_has_entry).
    simpl. rewrite entries_with_alias_to_id_map.
    rewrite Hentries, fmap_app, fmap_cons, Halias in Hnodup.
    by rewrite fmap_app, fmap_cons.
  - rewrite set_alias_id_mapping_new by by apply not_has_entry.
    simpl. rewrite entries_with_alias_to_id_map, fmap_app. simpl.
    apply NoDup_app. split; [done|]. split; [|apply NoDup_singleton].
    intros a (mapping & -> & Hin)%list_elem_of_fmap Hsingle.
    apply list_elem_of_singleton in Hsingle. by apply (Hnone mapping).
Qed.

(** C5. [set_alias_id_mapping(alias, id)] overwrites the id of the first
    mapping for [alias] when there is one and otherwise appends a new mapping
    at the end; from no mappings, setting "foo" to [id1] and then to [id2]
    leaves the single mapping ("foo", [id2]); and a list with at most one
    mapping per alias stays so. The call returns without raising and prints
    nothing, whether the list was [None] or a list before. *)
Theorem set_alias_id_mapping_upsert (p : PendingTournament.t) (alias : string)
    (id : option ObjectId) :
  (forall l1 mapping l2,
      entries p = l1 ++ mapping :: l2 ->
      ~ has_entry l1 alias ->
      AliasMapping.player_alias mapping = alias ->
      PendingTournament.set_alias_id_mapping alias id p
      = (Return tt,
         PendingTournament.with_alias_to_id_map
           (Some (l1 ++ AliasMapping.Build id alias :: l2)) p, []))
  /\ (~ has_entry (entries p) alias ->
      PendingTournament.set_alias_id_mapping alias id p
      = (Return tt,
         PendingTournament.with_alias_to_id_map
           (Some (entries p ++ [AliasMapping.Build id alias])) p, []))
  /\ (entries p = [] ->
      forall id1 id2,
        entries
          (after (PendingTournament.set_alias_id_mapping "foo" id2)
             (after (PendingTournament.set_alias_id_mapping "foo" id1) p))
        = [AliasMapping.Build id2 "foo"])
  /\ (one_entry_per_alias (entries p) ->
      one_entry_per_alias
        (entries (after (PendingTournament.set_alias_id_mapping alias id) p))).
Proof.
  split; [|split; [|split]].
  - intros l1 mapping l2. apply set_alias_id_mapping_existing.
  - apply set_alias_id_mapping_new.
  - intros Hempty id1 id2. unfold after.
    rewrite (set_alias_id_mapping_new p "foo" id1).
    + cbn [fst snd]. rewrite Hempty.
      rewrite (set_alias_id_mapping_existing _ "foo" id2 []
                 [] (AliasMapping.Build id1 "foo"));
        [done | done | apply not_has_entry_nil | done].
    + rewrite Hempty. apply not_has_entry_nil.
  - apply set_alias_id_mapping_one_entry.
Qed.

Lemma set_alias_id_mapping_upsert_witness :
  PendingTournament.set_alias_id_mapping "bar" (Some 9%N)
    (pending_of [] []
       (Some [AliasMapping.Build (Some 1%N) "foo";
              AliasMapping.Build None "bar";
              AliasMapping.Build (Some 3%N) "baz"]))
  = (Return tt,
     pending_of [] []
       (Some [AliasMapping.Build (Some 1%N) "foo";
              AliasMapping.Build (Some 9%N) "bar";
              AliasMapping.Build (Some 3%N) "baz"]), [])
  /\ PendingTournament.set_alias_id_mapping "foo" (Some 1%N)
       (pending_of [] [] None)
     = (Return tt,
        pending_of [] [] (Some [AliasMapping.Build (Some 1%N) "foo"]), [])
  /\ entries
       (after (PendingTournament.set_alias_id_mapping "foo" (Some 2%N))
          (after (PendingTournament.set_alias_id_mapping "foo" (Some 1%N))
             (pending_of [] [] (Some []))))
     = [AliasMapping.Build (Some 2%N) "foo"]
  /\ one_entry_per_alias
       (entries
          (after (PendingTournament.set_alias_id_mapping "foo" (Some 2%N))
             (pending_of [] [] (Some [AliasMapping.Build (Some 1%N) "foo"])))).
Proof.
  split; [|split; [|split]].
  - apply (proj1 (set_alias_id_mapping_upsert
                    (pending_of [] []
                       (Some [AliasMapping.Build (Some 1%N) "foo";
                              AliasMapping.Build None "bar";
                              AliasMapping.Build (Some 3%N) "baz"]))
                    "bar" (Some 9%N))
             [AliasMapping.Build (Some 1%N) "foo"]
             (AliasMapping.Build None "bar")
             [AliasMapping.Build (Some 3%N) "baz"]);
      [reflexivity | | reflexivity].
    intros (mapping & Hin%list_elem_of_singleton & Halias).
    subst mapping. discriminate Halias.
  - apply (proj1 (proj2 (set_alias_id_mapping_upsert
                           (pending_of [] [] None) "foo" (Some 1%N)))).
    apply not_has_entry_nil.
  - apply (proj1 (proj2 (proj2 (set_alias_id_mapping_upsert
                                  (pending_of [] [] (Some [])) "foo" None)))).
    reflexivity.
  - apply (proj2 (proj2 (proj2 (set_alias_id_mapping_upsert
                                  (pending_of [] []
                                     (Some [AliasMapping.Build (Some 1%N) "foo"]))
                                  "foo" (Some 2%N))))).
    unfold one_entry_per_alias. simpl. apply NoDup_singleton.
Defined.

(** C6. [delete_alias_id_mapping(alias)] takes the first mapping for [alias]
    out of the list and returns it. When there is no mapping for [alias]
    (the list may be empty, or [None] and then initialised to the empty
    list) it returns [None] and the list holds the mappings it held. *)
Theorem delete_alias_id_mapping_spec (p : PendingTournament.t) (alias : string) :
  (forall l1 mapping l2,
      entries p = l1 ++ mapping :: l2 ->
      ~ has_entry l1 alias ->
      AliasMapping.player_alias mapping = alias ->
      PendingTournament.delete_alias_id_mapping alias p
      = (Return (Some mapping),
         PendingTournament.with_alias_to_id_map (Some (l1 ++ l2)) p, []))
  /\ (~ has_entry (entries p) alias ->
      PendingTournament.delete_alias_id_mapping alias p
      = (Return None,
         PendingTournament.with_alias_to_id_map (Some (entries p)) p, [])
      /\ entries (after (PendingTournament.delete_alias_id_mapping alias) p)
         = entries p
      /\ (is_Some (PendingTournament.alias_to_id_map p) ->
          after (PendingTournament.delete_alias_id_mapping alias) p = p)).
Proof.
  split.
  - intros l1 mapping l2 Hentries Hbefore Halias.
    rewrite delete_alias_id_mapping_run, Hentries.
    rewrite first_where_middle by (done || by apply not_has_entry).
    rewrite remove_first; [done|].
    intros Hin. apply Hbefore. by exists mapping.
  - intros Hnone. unfold after.
    rewrite delete_alias_id_mapping_run.
    rewrite first_where_None by by apply not_has_entry.
    split; [done|]. split; [done|].
    intros [l Hl]. simpl. apply with_alias_to_id_map_same.
    unfold entries. by rewrite Hl.
Qed.

Lemma delete_alias_id_mapping_spec_witness :
  PendingTournament.delete_alias_id_mapping "bar"
    (pending_of [] []
       (Some [AliasMapping.Build (Some 1%N) "foo";
              AliasMapping.Build (Some 2%N) "bar";
              AliasMapping.Build (Some 3%N) "bar"]))
  = (Return (Some (AliasMapping.Build (Some 2%N) "bar")),
     pending_of [] []
       (Some [AliasMapping.Build (Some 1%N) "foo";
              AliasMapping.Build (Some 3%N) "bar"]), [])
  /\ PendingTournament.delete_alias_id_mapping "foo" (pending_of [] [] (Some []))
     = (Return None, pending_of [] [] (Some []), []).
Proof.
  split.
  - apply (proj1 (delete_alias_id_mapping_spec
                    (pending_of [] []
                       (Some [AliasMapping.Build (Some 1%N) "foo";
                              AliasMapping.Build (Some 2%N) "bar";
                              AliasMapping.Build (Some 3%N) "bar"]))
                    "bar")
             [AliasMapping.Build (Some 1%N) "foo"]
             (AliasMapping.Build (Some 2%N) "bar")
             [AliasMapping.Build (Some 3%N) "bar"]);
      [reflexivity | | reflexivity].
    intros (mapping & Hin%list_elem_of_singleton & Halias).
    subst mapping. discriminate Halias.
  - apply (proj1 (proj2 (delete_alias_id_mapping_spec
                           (pending_of [] [] (Some [])) "foo")
                    (not_has_entry_nil "foo"))).
Defined.

(** ** Tournament.from_pending_tournament *)

(** *** The dictionary built from the mappings *)

Lemma dict_snoc `{Countable K} {V} (pairs : list (K * V)) (k : K) (v : V) :
  Py.dict (pairs ++ [(k, v)]) = <[k := v]> (Py.dict pairs).
Proof. unfold Py.dict. by rewrite foldl_snoc. Qed.

Lemma assigned_pairs_snoc (l : list AliasMapping.t) (entry : AliasMapping.t) :
  Tournament.assigned_pairs (l ++ [entry])
  = Tournament.assigned_pairs l
    ++ match AliasMapping.player_id entry with
       | Some player_id => [(AliasMapping.player_alias entry, player_id)]
       | None => []
       end.
Proof.
  unfold Tournament.assigned_pairs. rewrite omap_app. simpl.
  by destruct (AliasMapping.player_id entry).
Qed.

Lemma has_assigned_id_snoc (l : list AliasMapping.t) (entry : AliasMapping.t)
    (alias : string) :
  has_assigned_id (l ++ [entry]) alias <->
  has_assigned_id l alias
  \/ (AliasMapping.player_alias entry = alias
      /\ is_Some (AliasMapping.player_id entry)).
Proof.
  unfold has_assigned_id. split.
  - intros (player_id & [Hin | <-%list_elem_of_singleton]%elem_of_app).
    + left. by exists player_id.
    + right. simpl. eauto.
  - intros [(player_id & Hin) | (Halias & player_id & Hid)].
    + exists player_id. apply elem_of_app. by left.
    + exists player_id. apply elem_of_app. right.
      apply list_elem_of_singleton. destruct entry; simpl in *. by subst.
Qed.

Lemma resolves_snoc_other (l : list AliasMapping.t) (entry : AliasMapping.t)
    (alias : string) (player_id : ObjectId) :
  ~ (AliasMapping.player_alias entry = alias
     /\ is_Some (AliasMapping.player_id entry)) ->
  resolves l alias player_id -> resolves (l ++ [entry]) alias player_id.
Proof.
  intros Hother (l1 & l2 & -> & Hlast).
  exists l1, (l2 ++ [entry]). split; [by rewrite <- (assoc_L (++))|].
  rewrite has_assigned_id_snoc. by intros [? | ?].
Qed.

Lemma not_has_assigned_id_nil (alias : string) : ~ has_assigned_id [] alias.
Proof. by intros (player_id & Hin%elem_of_nil). Qed.

(** Looking an alias up in the dictionary gives the id of the last mapping
    for it that carries one, and fails when no mapping for it carries one. *)
Lemma lookup_dict_assigned (l : list AliasMapping.t) (alias : string) :
  match Py.dict (Tournament.assigned_pairs l) !! alias with
  | Some player_id => resolves l alias player_id
  | None => ~ has_assigned_id l alias
  end.
Proof.
  induction l as [|entry l IH] using rev_ind.
  - unfold Py.dict. simpl. rewrite lookup_empty. apply not_has_assigned_id_nil.
  - rewrite assigned_pairs_snoc. destruct entry as [[player_id|] entry_alias]; simpl.
    + rewrite dict_snoc, lookup_insert. case_decide as Halias.
      * subst entry_alias. exists l, []. split; [done|].
        apply not_has_assigned_id_nil.
      * destruct (Py.dict (Tournament.assigned_pairs l) !! alias).
        -- apply resolves_snoc_other; [|done]. simpl. by intros [? _].
        -- rewrite has_assigned_id_snoc. simpl. by intros [? | [? _]].
    + rewrite app_nil_r.
      destruct (Py.dict (Tournament.assigned_pairs l) !! alias).
      * apply resolves_snoc_other; [|done]. simpl.
        intros [_ [? ?]]. discriminate.
      * rewrite has_assigned_id_snoc. simpl.
        intros [? | [_ [? ?]]]; [done | discriminate].
Qed.

Lemma resolves_has_assigned_id (l : list AliasMapping.t) (alias : string)
    (player_id : ObjectId) :
  resolves l alias player_id -> has_assigned_id l alias.
Proof.
  intros (l1 & l2 & -> & _). exists player_id.
  rewrite elem_of_app, elem_of_cons. auto.
Qed.

Lemma lookup_dict_Some (l : list AliasMapping.t) (alias : string)
    (player_id : ObjectId) :
  Py.dict (Tournament.assigned_pairs l) !! alias = Some player_id ->
  resolves l alias player_id.
Proof. intros Hlookup. pose proof (lookup_dict_assigned l alias) as H. by rewrite Hlookup in H. Qed.

Lemma lookup_dict_None (l : list AliasMapping.t) (alias : string) :
  Py.dict (Tournament.assigned_pairs l) !! alias = None ->
  ~ has_assigned_id l alias.
Proof. intros Hlookup. pose proof (lookup_dict_assigned l alias) as H. by rewrite Hlookup in H. Qed.

Lemma lookup_dict_is_Some (l : list AliasMapping.t) (alias : string) :
  has_assigned_id l alias ->
  is_Some (Py.dict (Tournament.assigned_pairs l) !! alias).
Proof.
  intros Hassigned. pose proof (lookup_dict_assigned l alias) as H.
  destruct (Py.dict (Tournament.assigned_pairs l) !! alias); [eauto|done].
Qed.

(** *** Loops whose body only looks things up *)

Section for_each.
Context {St A B : Type} (f : A -> M St B).
Context (R : A -> B -> Prop) (E : A -> exn -> Prop).
Hypothesis f_cases : forall x s,
  (exists y, R x y /\ f x s = (Return y, s, []))
  \/ (exists e, E x e /\ f x s = (Raise e, s, [])).

(** Either every element goes through, or the loop stops at an element
    that raises. *)
Lemma for_each_cases (l : list A) (s : St) :
  (exists ys, Forall2 R l ys /\ for_each f l s = (Return ys, s, []))
  \/ (exists x e, x ∈ l /\ E x e /\ for_each f l s = (Raise e, s, [])).
Proof.
  induction l as [|x l IH]; simpl.
  - left. exists []. split; [constructor | reflexivity].
  - unfold bind.
    destruct (f_cases x s) as [(y & Hy & ->) | (e & He & ->)].
    + destruct IH as [(ys & Hys & ->) | (x' & e & Hin & He & ->)].
      * left. exists (y :: ys). split; [by constructor | reflexivity].
      * right. exists x', e. split; [by right|]. by split.
    + right. exists x, e. split; [by left|]. by split.
Qed.
End for_each.

Lemma get_player_id_cases {St} (pairs : list (string * ObjectId))
    (alias : string) (s : St) :
  (exists player_id,
      Py.dict pairs !! alias = Some player_id
      /\ Tournament._get_player_id_from_map_or_throw pairs alias s
         = (Return player_id, s, []))
  \/ (exists e,
        (Py.dict pairs !! alias = None /\ e = ValueError_no_id alias pairs)
        /\ Tournament._get_player_id_from_map_or_throw pairs alias s
           = (Raise e, s, [])).
Proof.
  unfold Tournament._get_player_id_from_map_or_throw.
  destruct (Py.dict pairs !! alias) as [player_id|]; [left | right]; eauto.
Qed.

Lemma resolve_match_cases {St} (pairs : list (string * ObjectId))
    (am : AliasMatch.t) (s : St) :
  (exists m,
      (Py.dict pairs !! AliasMatch.winner am = Some (Match.winner m)
       /\ Py.dict pairs !! AliasMatch.loser am = Some (Match.loser m))
      /\ Tournament.resolve_match pairs am s = (Return m, s, []))
  \/ (exists e,
        (exists alias,
            alias ∈ [AliasMatch.winner am; AliasMatch.loser am]
            /\ Py.dict pairs !! alias = None
            /\ e = ValueError_no_id alias pairs)
        /\ Tournament.resolve_match pairs am s = (Raise e, s, [])).
Proof.
  unfold Tournament.resolve_match, bind,
    Tournament._get_player_id_from_map_or_throw.
  destruct (Py.dict pairs !! AliasMatch.winner am) as [w|] eqn:Hw; simpl.
  - destruct (Py.dict pairs !! AliasMatch.loser am) as [l|] eqn:Hl; simpl.
    + left. by exists (Match.Build w l).
    + right. eexists. split; [|reflexivity].
      exists (AliasMatch.loser am). rewrite !elem_of_cons. auto.
  - right. eexists. split; [|reflexivity].
    exists (AliasMatch.winner am). rewrite !elem_of_cons. auto.
Qed.

Lemma elem_of_aliases_of (p : PendingTournament.t) (alias : string) :
  alias ∈ aliases_of p <->
  alias ∈ PendingTournament.players p
  \/ exists am, am ∈ PendingTournament.matches p
                /\ (alias = AliasMatch.winner am \/ alias = AliasMatch.loser am).
Proof.
  unfold aliases_of. rewrite elem_of_app, list_elem_of_join. split.
  - intros [Hplayer | (pair & Halias & (am & -> & Ham)%list_elem_of_fmap)];
      [by left|].
    right. exists am. split; [done|].
    rewrite !elem_of_cons, elem_of_nil in Halias. tauto.
  - intros [Hplayer | (am & Ham & Halias)]; [by left|].
    right. exists [AliasMatch.winner am; AliasMatch.loser am]. split.
    + rewrite !elem_of_cons. tauto.
    + apply list_elem_of_fmap. by exists am.
Qed.

Lemma Forall2_elem_of_l {A B} (R : A -> B -> Prop) (l : list A) (k : list B)
    (x : A) :
  Forall2 R l k -> x ∈ l -> exists y, y ∈ k /\ R x y.
Proof.
  intros Hall (i & Hi)%list_elem_of_lookup_1.
  destruct (Forall2_lookup_l _ _ _ _ _ Hall Hi) as (y & Hy & HR).
  exists y. split; [by eapply list_elem_of_lookup_2 | done].
Qed.

(** The constructor, by the two answers of its validator. *)
Lemma new_cases_tournament {St} (kwargs : Tournament.t) (s : St) :
  (Tournament.type kwargs ∈ SOURCE_TYPE_CHOICES
   /\ Tournament.new kwargs s = (Return kwargs, s, []))
  \/ ((Tournament.type kwargs ∉ SOURCE_TYPE_CHOICES)
      /\ Tournament.new kwargs s
         = (Raise (ValidationError "type" (Tournament.type kwargs)), s, [])).
Proof.
  unfold Tournament.new, validate_choices.
  destruct (decide (Tournament.type kwargs ∈ SOURCE_TYPE_CHOICES)) as [Hin | Hout].
  - left. by rewrite bool_decide_eq_true_2.
  - right. by rewrite bool_decide_eq_false_2.
Qed.

(** The call on a pending tournament that has a list of mappings: every
    alias is found in the dictionary and the constructor accepts the type,
    and a tournament comes back; or the call raises for an alias that the
    dictionary lacks; or every alias is found and the constructor refuses
    the type. The pending tournament itself is not written to. *)
Lemma from_pending_tournament_run (p : PendingTournament.t)
    (l : list AliasMapping.t) :
  PendingTournament.alias_to_id_map p = Some l ->
  let pairs := Tournament.assigned_pairs l in
  let d := Py.dict pairs in
  let out := [Line_pending (PendingTournament.players p)
                           (PendingTournament.matches p)] in
  (exists t,
      Tournament.from_pending_tournament p = (Return t, p, out)
      /\ PendingTournament.type p ∈ SOURCE_TYPE_CHOICES
      /\ Forall2 (fun alias player_id => d !! alias = Some player_id)
           (PendingTournament.players p) (Tournament.players t)
      /\ Forall2 (fun am m =>
                    d !! AliasMatch.winner am = Some (Match.winner m)
                    /\ d !! AliasMatch.loser am = Some (Match.loser m))
           (PendingTournament.matches p) (Tournament.matches t)
      /\ Tournament.orig_ids t = Tournament.players t)
  \/ (exists alias,
        alias ∈ aliases_of p /\ d !! alias = None
        /\ Tournament.from_pending_tournament p
           = (Raise (ValueError_no_id alias pairs), p, out))
  \/ ((forall alias, alias ∈ aliases_of p -> is_Some (d !! alias))
      /\ (PendingTournament.type p ∉ SOURCE_TYPE_CHOICES)
      /\ Tournament.from_pending_tournament p
         = (Raise (ValidationError "type" (PendingTournament.type p)), p, out)).
Proof.
  intros Hmap pairs d out.
  unfold Tournament.from_pending_tournament, bind, get, iter, print.
  rewrite Hmap. unfold ret. cbv beta iota zeta. fold pairs.
  destruct (for_each_cases _ _ _ (get_player_id_cases pairs)
              (PendingTournament.players p) p)
    as [(ids & Hids & ->) | (alias & e & Hin & [Hnone ->] & ->)].
  - destruct (for_each_cases _ _ _ (resolve_match_cases pairs)
                (PendingTournament.matches p) p)
      as [(ms & Hms & ->) | (am & e & Hin & (alias & Halias & Hnone & ->) & ->)].
    + match goal with
      | |- context [Tournament.new ?k p] =>
          destruct (new_cases_tournament k p) as [[Htype ->] | [Htype ->]]
      end.
      * left. eexists. split; [reflexivity|]. split; [exact Htype|]. done.
      * right. right. split; [|split; [exact Htype | reflexivity]].
        intros alias [Hin | (am & Ham & Halias)]%elem_of_aliases_of.
        -- destruct (Forall2_elem_of_l _ _ _ _ Hids Hin) as (i & _ & Hi).
           unfold d. by rewrite Hi.
        -- destruct (Forall2_elem_of_l _ _ _ _ Hms Ham) as (m & _ & Hw & Hl).
           unfold d.
           destruct Halias as [-> | ->]; [by rewrite Hw | by rewrite Hl].
    + right. left. exists alias. split; [|done].
      apply elem_of_aliases_of. right. exists am. split; [done|].
      rewrite !elem_of_cons, elem_of_nil in Halias. tauto.
  - right. left. exists alias. split; [|done].
    apply elem_of_aliases_of. by left.
Qed.

(** With at most one mapping per alias, the id an alias resolves to is the
    id of its mapping. *)
Lemma resolves_one_entry (l : list AliasMapping.t) (alias : string)
    (player_id : ObjectId) :
  one_entry_per_alias l ->
  AliasMapping.Build (Some player_id) alias ∈ l ->
  resolves l alias player_id.
Proof.
  unfold one_entry_per_alias.
  intros Hnodup (l1 & l2 & ->)%list_elem_of_split.
  exists l1, l2. split; [done|]. intros (other & Hin).
  rewrite fmap_app, fmap_cons in Hnodup.
  apply NoDup_app in Hnodup as (_ & _ & [Hfresh _]%NoDup_cons).
  apply Hfresh. simpl. apply list_elem_of_fmap.
  by exists (AliasMapping.Build (Some other) alias).
Qed.

Lemma lookup_dict_None_iff (l : list AliasMapping.t) (alias : string) :
  Py.dict (Tournament.assigned_pairs l) !! alias = None
  <-> ~ has_assigned_id l alias.
Proof.
  split; [apply lookup_dict_None|].
  intros Hnone. pose proof (lookup_dict_assigned l alias) as Hlookup.
  destruct (Py.dict (Tournament.assigned_pairs l) !! alias); [|done].
  destruct Hnone. by eapply resolves_has_assigned_id.
Qed.

Lemma lookup_dict_is_Some_iff (l : list AliasMapping.t) (alias : string) :
  is_Some (Py.dict (Tournament.assigned_pairs l) !! alias)
  <-> has_assigned_id l alias.
Proof.
  split; [|apply lookup_dict_is_Some].
  intros [player_id Hlookup].
  eauto using resolves_has_assigned_id, lookup_dict_Some.
Qed.

(** C1, as the code has it. For a pending tournament that has a list of
    mappings, [from_pending_tournament] raises the resolution error, the
    [ValueError], exactly when some alias of the players list or of a
    match's winner or loser has no mapping that carries an id: a mapping
    whose [player_id] is [None] does not count. The error is for such an
    alias. The only other failure is the constructor refusing a type that is
    not one of the source types, after every alias was resolved; so for a
    type that is one of them the call fails exactly when some alias has no
    mapping with an id. When the call fails no tournament is produced, and
    the pending tournament is left as it was. *)
Theorem from_pending_tournament_fails_iff (p : PendingTournament.t)
    (l : list AliasMapping.t) :
  PendingTournament.alias_to_id_map p = Some l ->
  ((exists alias pairs,
       result Tournament.from_pending_tournament p
       = Raise (ValueError_no_id alias pairs)) <->
   (exists alias, alias ∈ aliases_of p /\ ~ has_assigned_id l alias))
  /\ (forall e,
        result Tournament.from_pending_tournament p = Raise e ->
        (exists alias,
            e = ValueError_no_id alias (Tournament.assigned_pairs l)
            /\ alias ∈ aliases_of p /\ ~ has_assigned_id l alias)
        \/ (e = ValidationError "type" (PendingTournament.type p)
            /\ (PendingTournament.type p ∉ SOURCE_TYPE_CHOICES)
            /\ forall alias, alias ∈ aliases_of p -> has_assigned_id l alias))
  /\ (PendingTournament.type p ∈ SOURCE_TYPE_CHOICES ->
      ((exists e, result Tournament.from_pending_tournament p = Raise e) <->
       (exists alias, alias ∈ aliases_of p /\ ~ has_assigned_id l alias)))
  /\ ((exists e, result Tournament.from_pending_tournament p = Raise e) ->
      forall t, result Tournament.from_pending_tournament p <> Return t)
  /\ after Tournament.from_pending_tournament p = p.
Proof.
  intros Hmap. unfold result, after.
  assert (forall t,
             Forall2 (fun alias player_id =>
                        Py.dict (Tournament.assigned_pairs l) !! alias
                        = Some player_id)
               (PendingTournament.players p) (Tournament.players t) ->
             Forall2 (fun am m =>
                        Py.dict (Tournament.assigned_pairs l)
                          !! AliasMatch.winner am = Some (Match.winner m)
                        /\ Py.dict (Tournament.assigned_pairs l)
                             !! AliasMatch.loser am = Some (Match.loser m))
               (PendingTournament.matches p) (Tournament.matches t) ->
             ~ exists alias, alias ∈ aliases_of p /\ ~ has_assigned_id l alias)
    as Hresolved.
  { intros t Hplayers Hmatches (alias & Hin & Hunassigned).
    apply Hunassigned.
    apply elem_of_aliases_of in Hin as [Hin | (am & Ham & Halias)].
    - destruct (Forall2_elem_of_l _ _ _ _ Hplayers Hin) as (player_id & _ & Hd).
      eauto using resolves_has_assigned_id, lookup_dict_Some.
    - destruct (Forall2_elem_of_l _ _ _ _ Hmatches Ham) as (m & _ & Hw & Hl).
      destruct Halias as [-> | ->];
        eauto using resolves_has_assigned_id, lookup_dict_Some. }
  destruct (from_pending_tournament_run p l Hmap)
    as [(t & -> & Htype & Hplayers & Hmatches & _)
       | [(alias & Hin & Hnone & ->) | (Hall & Htype & ->)]];
    cbn [fst snd].
  - pose proof (Hresolved t Hplayers Hmatches) as Hno.
    split; [|split; [|split; [|split]]]; [|done| |by intros [e ?]|done].
    + split; [by intros (? & ? & ?) | by intros ?].
    + intros _. split; [by intros [e ?] | by intros ?].
  - apply lookup_dict_None in Hnone.
    split; [|split; [|split; [|split]]]; [| | |done|done].
    + split; eauto.
    + intros e [= <-]. left. eauto.
    + intros _. split; eauto.
  - assert (forall alias, alias ∈ aliases_of p -> has_assigned_id l alias)
      as Hall'.
    { intros alias Hin. by apply lookup_dict_is_Some_iff, Hall. }
    split; [|split; [|split; [|split]]]; [| |done|done|done].
    + split; [by intros (? & ? & ?)|].
      intros (alias & Hin & Hunassigned). destruct Hunassigned. by apply Hall'.
    + intros e [= <-]. right. done.
Qed.

Lemma from_pending_tournament_fails_iff_witness :
  (exists alias pairs,
      result Tournament.from_pending_tournament
        (pending_of ["a"; "b"] [AliasMatch.Build "a" "b"]
           (Some [AliasMapping.Build (Some 1%N) "a"]))
      = Raise (ValueError_no_id alias pairs)) <->
  (exists alias,
      alias ∈ aliases_of
                (pending_of ["a"; "b"] [AliasMatch.Build "a" "b"]
                   (Some [AliasMapping.Build (Some 1%N) "a"]))
      /\ ~ has_assigned_id [AliasMapping.Build (Some 1%N) "a"] alias).
Proof.
  apply (proj1 (from_pending_tournament_fails_iff
                  (pending_of ["a"; "b"] [AliasMatch.Build "a" "b"]
                     (Some [AliasMapping.Build (Some 1%N) "a"]))
                  [AliasMapping.Build (Some 1%N) "a"] eq_refl)).
Defined.

(** C1 as the specification words it fails for a mapping without an id:
    with the player "foo" and the single mapping ("foo", None) every alias
    has an entry in [alias_to_id_map], and the call raises all the same. *)
Lemma from_pending_tournament_entry_without_id :
  let p := pending_of ["foo"] [] (Some [AliasMapping.Build None "foo"]) in
  (forall alias, alias ∈ aliases_of p -> has_entry (entries p) alias)
  /\ Tournament.from_pending_tournament p
     = (Raise (ValueError_no_id "foo" []), p, [Line_pending ["foo"] []]).
Proof.
  simpl. split; [|reflexivity].
  intros alias Hin. exists (AliasMapping.Build None "foo").
  unfold aliases_of in Hin. simpl in Hin.
  apply list_elem_of_singleton in Hin as ->.
  split; [by apply list_elem_of_singleton | done].
Qed.

(** C2, as the code has it. For a pending tournament whose type is one of
    the source types and that has a list of mappings in which every player
    and match alias has a mapping that carries an id,
    [from_pending_tournament] returns a tournament whose players list has
    the length and the order of the pending players list, each alias
    replaced by the id of the last mapping for it that carries one (mappings
    without an id are skipped), and whose [orig_ids] is that same list; the
    matches are resolved in the same way. *)
Theorem from_pending_tournament_resolves (p : PendingTournament.t)
    (l : list AliasMapping.t) :
  PendingTournament.type p ∈ SOURCE_TYPE_CHOICES ->
  PendingTournament.alias_to_id_map p = Some l ->
  (forall alias, alias ∈ aliases_of p -> has_assigned_id l alias) ->
  exists t,
    Tournament.from_pending_tournament p
    = (Return t, p,
       [Line_pending (PendingTournament.players p)
                     (PendingTournament.matches p)])
    /\ length (Tournament.players t) = length (PendingTournament.players p)
    /\ Forall2 (resolves l) (PendingTournament.players p) (Tournament.players t)
    /\ Tournament.orig_ids t = Tournament.players t
    /\ Forall2 (fun am m =>
                  resolves l (AliasMatch.winner am) (Match.winner m)
                  /\ resolves l (AliasMatch.loser am) (Match.loser m))
         (PendingTournament.matches p) (Tournament.matches t).
Proof.
  intros Htype Hmap Hall.
  destruct (from_pending_tournament_run p l Hmap)
    as [(t & Hrun & _ & Hplayers & Hmatches & Horig)
       | [(alias & Hin & Hnone & _) | (_ & Hbad & _)]].
  - exists t. split; [done|].
    split; [symmetry; by eapply Forall2_length|].
    split; [|split; [done|]].
    + eapply Forall2_impl; [exact Hplayers|].
      intros alias player_id. apply lookup_dict_Some.
    + eapply Forall2_impl; [exact Hmatches|].
      intros am m [Hw Hl]. split; by apply lookup_dict_Some.
  - apply lookup_dict_None in Hnone. destruct Hnone. by apply Hall.
  - done.
Qed.

Lemma from_pending_tournament_resolves_witness :
  exists t,
    Tournament.from_pending_tournament
      (pending_of ["b"; "a"] [AliasMatch.Build "a" "b"]
         (Some [AliasMapping.Build (Some 1%N) "a";
                AliasMapping.Build None "c";
                AliasMapping.Build (Some 2%N) "b"]))
    = (Return t,
       pending_of ["b"; "a"] [AliasMatch.Build "a" "b"]
         (Some [AliasMapping.Build (Some 1%N) "a";
                AliasMapping.Build None "c";
                AliasMapping.Build (Some 2%N) "b"]),
       [Line_pending ["b"; "a"] [AliasMatch.Build "a" "b"]])
    /\ length (Tournament.players t) = 2
    /\ Forall2 (resolves [AliasMapping.Build (Some 1%N) "a";
                          AliasMapping.Build None "c";
                          AliasMapping.Build (Some 2%N) "b"])
         ["b"; "a"] (Tournament.players t)
    /\ Tournament.orig_ids t = Tournament.players t.
Proof.
  destruct (from_pending_tournament_resolves
              (pending_of ["b"; "a"] [AliasMatch.Build "a" "b"]
                 (Some [AliasMapping.Build (Some 1%N) "a";
                        AliasMapping.Build None "c";
                        AliasMapping.Build (Some 2%N) "b"]))
              [AliasMapping.Build (Some 1%N) "a";
               AliasMapping.Build None "c";
               AliasMapping.Build (Some 2%N) "b"])
    as (t & Hrun & Hlen & Hplayers & Horig & _).
  - unfold SOURCE_TYPE_CHOICES. simpl. rewrite !elem_of_cons. auto.
  - reflexivity.
  - intros alias Hin. unfold aliases_of in Hin. simpl in Hin.
    rewrite !elem_of_cons, elem_of_nil in Hin.
    destruct Hin as [-> | [-> | [-> | [-> | []]]]].
    + exists 2%N. rewrite !elem_of_cons. auto.
    + exists 1%N. rewrite !elem_of_cons. auto.
    + exists 1%N. rewrite !elem_of_cons. auto.
    + exists 2%N. rewrite !elem_of_cons. auto.
  - exists t. auto.
Defined.

(** The example of the witness, computed: the players come back as [2, 1],
    in the order of ["b", "a"]. *)
Example from_pending_tournament_example :
  (fun t => (Tournament.players t, Tournament.orig_ids t, Tournament.matches t))
    <$> match result Tournament.from_pending_tournament
                (pending_of ["b"; "a"] [AliasMatch.Build "a" "b"]
                   (Some [AliasMapping.Build (Some 1%N) "a";
                          AliasMapping.Build None "c";
                          AliasMapping.Build (Some 2%N) "b"])) with
        | Return t => Some t
        | Raise _ => None
        end
  = Some ([2%N; 1%N], [2%N; 1%N], [Match.Build 1%N 2%N]).
Proof. vm_compute. reflexivity. Qed.

(** C2 as the specification words it fails on a type that is not one of the
    source types: a pending tournament takes any type, every alias of this
    one is resolvable, and the constructor of the tournament refuses the
    type instead of a tournament being returned. *)
Lemma from_pending_tournament_unlisted_type :
  let p :=
    {| PendingTournament.id := 0%N; PendingTournament.name := "pending";
       PendingTournament.type := "bogus"; PendingTournament.date := None;
       PendingTournament.regions := []; PendingTournament.url := None;
       PendingTournament.raw := None; PendingTournament.matches := [];
       PendingTournament.players := ["a"];
       PendingTournament.alias_to_id_map :=
         Some [AliasMapping.Build (Some 1%N) "a"] |} in
  (forall alias, alias ∈ aliases_of p -> has_assigned_id (entries p) alias)
  /\ Tournament.from_pending_tournament p
     = (Raise (ValidationError "type" "bogus"), p, [Line_pending ["a"] []]).
Proof.
  simpl. split; [|reflexivity].
  intros alias Hin. unfold aliases_of in Hin. simpl in Hin.
  apply list_elem_of_singleton in Hin as ->.
  exists 1%N. by apply list_elem_of_singleton.
Qed.

(** The list of mappings that was never set: a pending tournament with no
    players and no matches has no alias left to resolve, and the call raises
    on the missing list all the same; [set_alias_id_mapping] and
    [delete_alias_id_mapping] start by putting the empty list there, this
    method does not. *)
Lemma from_pending_tournament_without_map :
  let p := pending_of [] [] None in
  (forall alias, alias ∈ aliases_of p -> has_assigned_id (entries p) alias)
  /\ Tournament.from_pending_tournament p
     = (Raise TypeError_not_iterable, p, []).
Proof.
  simpl. split; [|reflexivity].
  intros alias Hin. unfold aliases_of in Hin. simpl in Hin.
  by apply elem_of_nil in Hin.
Qed.

(** * Further properties *)

(** ** Match: the query helpers together *)

(** [get_opposing_player_id] finds an opponent exactly for the ids that
    [contains_player] accepts. *)
Theorem get_opposing_player_id_is_Some (m : Match.t) (p : ObjectId) :
  is_Some (Match.get_opposing_player_id m p) <->
  Match.contains_player m p = true.
Proof.
  unfold Match.get_opposing_player_id, Match.contains_player.
  repeat case_decide; repeat case_bool_decide; simpl;
    try congruence; split; (done || eauto || by intros [? ?]).
Qed.

(** The opponent of the opponent is the player one started from, and the
    two make up the match. *)
Theorem get_opposing_player_id_involutive (m : Match.t) (p q : ObjectId) :
  Match.get_opposing_player_id m p = Some q ->
  Match.get_opposing_player_id m q = Some p
  /\ Match.contains_players m p q = true.
Proof.
  unfold Match.get_opposing_player_id, Match.contains_players.
  intros Hq. repeat case_decide; simplify_eq; split; try done;
    repeat case_bool_decide; simpl; congruence.
Qed.

Lemma get_opposing_player_id_involutive_witness :
  Match.get_opposing_player_id (Match.Build 1%N 2%N) 2%N = Some 1%N
  /\ Match.contains_players (Match.Build 1%N 2%N) 1%N 2%N = true.
Proof.
  apply (get_opposing_player_id_involutive (Match.Build 1%N 2%N) 1%N 2%N).
  reflexivity.
Defined.

(** [contains_players] does not depend on the order of its two arguments;
    both of them are then participants; and two different participants make
    up the match. *)
Theorem contains_players_contains_player (m : Match.t) (a b : ObjectId) :
  Match.contains_players m a b = Match.contains_players m b a
  /\ (Match.contains_players m a b = true ->
      Match.contains_player m a = true /\ Match.contains_player m b = true)
  /\ (a <> b -> Match.contains_player m a = true ->
      Match.contains_player m b = true ->
      Match.contains_players m a b = true).
Proof.
  unfold Match.contains_players, Match.contains_player.
  split; [apply orb_comm|].
  rewrite !orb_true_iff, !andb_true_iff, !bool_decide_eq_true.
  split; [tauto|].
  intros Hne [Ha | Ha] [Hb | Hb]; try tauto; congruence.
Qed.

Lemma contains_players_contains_player_witness :
  Match.contains_players (Match.Build 1%N 2%N) 2%N 1%N = true.
Proof.
  apply (proj2 (proj2 (contains_players_contains_player
                         (Match.Build 1%N 2%N) 2%N 1%N)));
    [simpl; lia | reflexivity | reflexivity].
Defined.

(** A player who won has the loser as opponent; a participant who did not
    win is the loser and has the winner as opponent; and for an id that is
    not in the match [did_player_win] answers [False] as well. *)
Theorem did_player_win_cases (m : Match.t) (p : ObjectId) :
  (Match.did_player_win m p = true ->
     Match.contains_player m p = true
     /\ Match.get_opposing_player_id m p = Some (Match.loser m))
  /\ (Match.contains_player m p = true -> Match.did_player_win m p = false ->
      Match.loser m = p
      /\ Match.get_opposing_player_id m p = Some (Match.winner m))
  /\ (Match.contains_player m p = false -> Match.did_player_win m p = false).
Proof.
  unfold Match.did_player_win, Match.contains_player,
    Match.get_opposing_player_id.
  rewrite orb_true_iff, orb_false_iff, !bool_decide_eq_true,
    !bool_decide_eq_false.
  split; [|split].
  - intros Hwin. split; [by left|]. by rewrite decide_True.
  - intros [Hw | Hl] Hnot; [done|]. split; [done|].
    rewrite decide_False by done. by rewrite decide_True.
  - tauto.
Qed.

Lemma did_player_win_cases_witness :
  Match.loser (Match.Build 1%N 2%N) = 2%N
  /\ Match.get_opposing_player_id (Match.Build 1%N 2%N) 2%N = Some 1%N.
Proof.
  apply (proj1 (proj2 (did_player_win_cases (Match.Build 1%N 2%N) 2%N)));
    reflexivity.
Defined.

(** ** Player: what the constructor guarantees *)

Lemma new_cases (kwargs : Player.t) :
  (Py.falsy (Player.merge_children kwargs) = true
   /\ Player.new kwargs
      = Player.with_merge_children (Some [Player.id kwargs]) kwargs)
  \/ (Py.falsy (Player.merge_children kwargs) = false
      /\ Player.new kwargs = kwargs).
Proof.
  unfold Player.new, Player.post_init, bind, get. simpl.
  destruct (Py.falsy (Player.merge_children kwargs)); [left | right]; done.
Qed.

Lemma new_not_falsy (kwargs : Player.t) :
  Py.falsy (Player.merge_children (Player.new kwargs)) = false.
Proof. by destruct (new_cases kwargs) as [[Hfalsy ->] | [Hfalsy ->]]. Qed.

Lemma post_init_not_falsy (self : Player.t) :
  Py.falsy (Player.merge_children self) = false ->
  Player.post_init self = (Return tt, self, []).
Proof.
  intros Hfalsy. unfold Player.post_init, bind, get. simpl. by rewrite Hfalsy.
Qed.

(** A constructed player never has an absent or empty [merge_children], and
    the constructor changes no other field. *)
Theorem new_merge_children_not_empty (kwargs : Player.t) :
  Py.falsy (Player.merge_children (Player.new kwargs)) = false
  /\ Player.new kwargs
     = Player.with_merge_children (Player.merge_children (Player.new kwargs))
         kwargs.
Proof.
  split; [apply new_not_falsy|].
  destruct (new_cases kwargs) as [[Hfalsy ->] | [Hfalsy ->]]; simpl.
  - done.
  - by destruct kwargs.
Qed.

(** The constructed player's id is in its [merge_children] exactly when no
    [merge_children] was passed, an empty one was, or the one passed
    contained the id already. *)
Theorem new_own_id_iff (kwargs : Player.t) :
  Player.id (Player.new kwargs)
    ∈ default [] (Player.merge_children (Player.new kwargs))
  <-> Py.falsy (Player.merge_children kwargs) = true
      \/ Player.id kwargs ∈ default [] (Player.merge_children kwargs).
Proof.
  destruct (new_cases kwargs) as [[Hfalsy ->] | [Hfalsy ->]]; simpl.
  - split; [by left|]. intros _. by apply list_elem_of_singleton.
  - rewrite Hfalsy. split; [by right|]. by intros [? | ?].
Qed.

(** Running [post_init] again on a constructed player changes nothing. *)
Theorem post_init_idempotent (kwargs : Player.t) :
  Player.post_init (Player.new kwargs) = (Return tt, Player.new kwargs, [])
  /\ Player.new (Player.new kwargs) = Player.new kwargs.
Proof.
  split.
  - apply post_init_not_falsy, new_not_falsy.
  - apply new_keeps_merge_children, new_not_falsy.
Qed.

(** ** Tournament.replace_player: what a replacement keeps and moves *)

Lemma replace_player_not_listed (t : Tournament.t) (r a : Player.t) :
  Player.id r ∉ Tournament.players t ->
  after (Tournament.replace_player (Some r) (Some a)) t = t.
Proof.
  intros Habsent.
  unfold after, Tournament.replace_player, bind, get, Py.contains. simpl.
  by rewrite bool_decide_eq_false_2 by done.
Qed.

(** The receiver after any call: untouched, or rewritten around the first
    occurrence of the removed id. *)
Lemma replace_player_after (t : Tournament.t) (r a : option Player.t) :
  after (Tournament.replace_player r a) t = t
  \/ exists r' a' l1 l2,
       r = Some r' /\ a = Some a'
       /\ Tournament.players t = l1 ++ Player.id r' :: l2
       /\ (Player.id r' ∉ l1)
       /\ after (Tournament.replace_player r a) t
          = Tournament.with_matches
              (Tournament.replace_in_match (Player.id r') (Player.id a')
                 <$> Tournament.matches t)
              (Tournament.with_players (l1 ++ l2 ++ [Player.id a']) t).
Proof.
  destruct r as [r'|]; [|by left].
  destruct a as [a'|]; [|by left].
  destruct (decide (Player.id r' ∈ Tournament.players t)) as [Hin | Hout].
  - right. apply list_elem_of_split_l in Hin as (l1 & l2 & Hplayers & Hfirst).
    exists r', a', l1, l2. unfold after.
    by rewrite (replace_player_run t r' a' l1 l2).
  - left. by apply replace_player_not_listed.
Qed.

(** If every winner and loser is among the players before the call, the
    same holds after it, whatever the two arguments are. *)
Theorem replace_player_participants_listed (t : Tournament.t)
    (r a : option Player.t) :
  participants_listed t ->
  participants_listed (after (Tournament.replace_player r a) t).
Proof.
  intros Hlisted.
  destruct (replace_player_after t r a)
    as [-> | (r' & a' & l1 & l2 & -> & -> & Hplayers & Hfirst & ->)]; [done|].
  intros m' (m & -> & Hm)%list_elem_of_fmap. simpl.
  destruct (replace_in_match_fields (Player.id r') (Player.id a') m) as [-> ->].
  destruct (Hlisted m Hm) as [Hw Hl]. rewrite Hplayers in Hw, Hl.
  rewrite !elem_of_app, !elem_of_cons, ?elem_of_nil in *.
  split; case_decide; tauto.
Qed.

Lemma replace_player_participants_listed_witness :
  participants_listed
    (after (Tournament.replace_player (Some (player_with_id 1%N))
              (Some (player_with_id 4%N)))
       (tournament_of [1%N; 2%N] [Match.Build 1%N 2%N])).
Proof.
  apply (replace_player_participants_listed
           (tournament_of [1%N; 2%N] [Match.Build 1%N 2%N])
           (Some (player_with_id 1%N)) (Some (player_with_id 4%N))).
  intros m Hm. simpl in Hm. apply list_elem_of_singleton in Hm as ->.
  simpl. rewrite !elem_of_cons. auto.
Defined.

(** No call changes how many players or how many matches the tournament
    has, nor its [id]. *)
Theorem replace_player_lengths (t : Tournament.t) (r a : option Player.t) :
  length (Tournament.players (after (Tournament.replace_player r a) t))
  = length (Tournament.players t)
  /\ length (Tournament.matches (after (Tournament.replace_player r a) t))
     = length (Tournament.matches t)
  /\ Tournament.id (after (Tournament.replace_player r a) t) = Tournament.id t.
Proof.
  destruct (replace_player_after t r a)
    as [-> | (r' & a' & l1 & l2 & -> & -> & Hplayers & Hfirst & ->)]; [done|].
  simpl. rewrite Hplayers, length_fmap, !length_app. simpl.
  split; [lia | done].
Qed.

Lemma replace_in_match_back (r a : ObjectId) (m : Match.t) :
  Match.winner m <> a -> Match.loser m <> a ->
  Tournament.replace_in_match a r (Tournament.replace_in_match r a m) = m.
Proof.
  destruct m as [w l]. unfold Tournament.replace_in_match. simpl.
  intros Hw Hl.
  repeat (case_decide; simpl in * ); subst; try done; congruence.
Qed.

Lemma replace_in_match_back_all (r a : ObjectId) (ms : list Match.t) :
  (forall m, m ∈ ms -> Match.winner m <> a /\ Match.loser m <> a) ->
  Tournament.replace_in_match a r <$> (Tournament.replace_in_match r a <$> ms)
  = ms.
Proof.
  induction ms as [|m ms IH]; intros Hfresh; simpl; [done|].
  destruct (Hfresh m) as [Hw Hl]; [by left|].
  rewrite replace_in_match_back by done. f_equal.
  apply IH. intros m' Hm'. apply Hfresh. by right.
Qed.

(** Replacing a player by one who is new to the tournament and then
    replacing back restores every match; the players list comes back as a
    permutation of what it was, the restored id now standing at the end. *)
Theorem replace_player_undo (t : Tournament.t) (r a : Player.t) :
  Player.id r ∈ Tournament.players t ->
  Player.id a ∉ Tournament.players t ->
  (forall m, m ∈ Tournament.matches t ->
     Match.winner m <> Player.id a /\ Match.loser m <> Player.id a) ->
  let t1 := after (Tournament.replace_player (Some r) (Some a)) t in
  let t2 := after (Tournament.replace_player (Some a) (Some r)) t1 in
  result (Tournament.replace_player (Some a) (Some r)) t1 = Return tt
  /\ Tournament.matches t2 = Tournament.matches t
  /\ Tournament.players t2 ≡ₚ Tournament.players t
  /\ last (Tournament.players t2) = Some (Player.id r).
Proof.
  intros Hin Hfresh Hmatches t1 t2.
  apply list_elem_of_split_l in Hin as (l1 & l2 & Hplayers & Hfirst).
  assert (t1 = Tournament.with_matches
                 (Tournament.replace_in_match (Player.id r) (Player.id a)
                    <$> Tournament.matches t)
                 (Tournament.with_players (l1 ++ l2 ++ [Player.id a]) t))
    as Ht1.
  { subst t1. unfold after. by rewrite (replace_player_run t r a l1 l2). }
  assert (Player.id a ∉ l1 ++ l2) as Hfresh'.
  { rewrite Hplayers in Hfresh.
    rewrite elem_of_app in *. rewrite elem_of_cons in Hfresh. tauto. }
  assert (Tournament.replace_player (Some a) (Some r) t1
          = (Return tt,
             Tournament.with_matches
               (Tournament.replace_in_match (Player.id a) (Player.id r)
                  <$> Tournament.matches t1)
               (Tournament.with_players ((l1 ++ l2) ++ [] ++ [Player.id r]) t1),
             [])) as Hrun.
  { apply replace_player_run; [|done]. rewrite Ht1. simpl.
    by rewrite (assoc_L (++)). }
  subst t2. unfold result, after. rewrite Hrun. simpl.
  split; [done|]. split; [|split].
  - rewrite Ht1. simpl. by apply replace_in_match_back_all.
  - rewrite Hplayers. simpl.
    etransitivity;
      [symmetry; apply Permutation_cons_append | apply Permutation_middle].
  - apply last_snoc.
Qed.

Lemma replace_player_undo_witness :
  Tournament.matches
    (after (Tournament.replace_player (Some (player_with_id 4%N))
              (Some (player_with_id 1%N)))
       (after (Tournament.replace_player (Some (player_with_id 1%N))
                 (Some (player_with_id 4%N)))
          (tournament_of [1%N; 2%N; 3%N] [Match.Build 1%N 2%N])))
  = [Match.Build 1%N 2%N].
Proof.
  apply (replace_player_undo
           (tournament_of [1%N; 2%N; 3%N] [Match.Build 1%N 2%N])
           (player_with_id 1%N) (player_with_id 4%N)).
  - simpl. rewrite !elem_of_cons. auto.
  - simpl. rewrite !elem_of_cons, elem_of_nil.
    intros [H | [H | [H | []]]]; discriminate H.
  - intros m Hm. simpl in Hm. apply list_elem_of_singleton in Hm as ->.
    simpl. split; discriminate.
Defined.

(** The gap that the comment in the code names: a match between the removed
    player and the added one becomes a match of the added player against
    himself. *)
Theorem replace_player_self_match (t : Tournament.t) (r a : Player.t)
    (i : nat) (m : Match.t) :
  Player.id r ∈ Tournament.players t ->
  Tournament.matches t !! i = Some m ->
  Match.contains_players m (Player.id r) (Player.id a) = true ->
  Tournament.matches (after (Tournament.replace_player (Some r) (Some a)) t)
    !! i
  = Some (Match.Build (Player.id a) (Player.id a)).
Proof.
  intros Hin Hm Hboth.
  apply list_elem_of_split_l in Hin as (l1 & l2 & Hplayers & Hfirst).
  unfold after. rewrite (replace_player_run t r a l1 l2) by done. simpl.
  rewrite list_lookup_fmap, Hm. simpl. f_equal.
  unfold Match.contains_players in Hboth.
  rewrite orb_true_iff, !andb_true_iff, !bool_decide_eq_true in Hboth.
  destruct m as [w l]. unfold Tournament.replace_in_match. simpl in *.
  destruct Hboth as [[Hw Hl] | [Hw Hl]]; subst w l;
    unfold Match.with_winner, Match.with_loser;
    repeat (case_decide; simpl in * ); try done; congruence.
Qed.

Lemma replace_player_self_match_witness :
  Tournament.matches
    (after (Tournament.replace_player (Some (player_with_id 1%N))
              (Some (player_with_id 2%N)))
       (tournament_of [1%N; 2%N] [Match.Build 1%N 2%N]))
    !! 0
  = Some (Match.Build 2%N 2%N).
Proof.
  apply (replace_player_self_match
           (tournament_of [1%N; 2%N] [Match.Build 1%N 2%N])
           (player_with_id 1%N) (player_with_id 2%N) 0 (Match.Build 1%N 2%N));
    [|reflexivity|reflexivity].
  simpl. rewrite !elem_of_cons. auto.
Defined.

Lemma wins_cons (p : ObjectId) (m : Match.t) (ms : list Match.t) :
  wins p (m :: ms)
  = (if decide (Match.winner m = p) then 1 else 0) + wins p ms.
Proof.
  unfold wins, Match.did_player_win. rewrite filter_cons.
  case_decide as Hwin; rewrite bool_decide_eq_true in Hwin.
  - by rewrite decide_True.
  - by rewrite decide_False.
Qed.

Lemma wins_replace_in_match (r a p : ObjectId) (ms : list Match.t) :
  r <> a ->
  wins p (Tournament.replace_in_match r a <$> ms)
  = if decide (p = r) then 0
    else if decide (p = a) then wins r ms + wins a ms
    else wins p ms.
Proof.
  intros Hne. induction ms as [|m ms IH].
  { simpl. unfold wins. simpl. by repeat case_decide. }
  rewrite fmap_cons, !wins_cons, IH.
  destruct (replace_in_match_fields r a m) as [-> _].
  repeat case_decide; subst; try congruence; lia.
Qed.

(** After a replacement by a different player, the added player has the
    wins of both, the removed player has none, and everybody else has the
    wins he had. *)
Theorem replace_player_wins (t : Tournament.t) (r a : Player.t) :
  Player.id r ∈ Tournament.players t ->
  Player.id r <> Player.id a ->
  let ms' :=
    Tournament.matches (after (Tournament.replace_player (Some r) (Some a)) t) in
  wins (Player.id a) ms'
  = wins (Player.id r) (Tournament.matches t)
    + wins (Player.id a) (Tournament.matches t)
  /\ wins (Player.id r) ms' = 0
  /\ (forall p, p <> Player.id r -> p <> Player.id a ->
        wins p ms' = wins p (Tournament.matches t)).
Proof.
  intros Hin Hne ms'. subst ms'.
  apply list_elem_of_split_l in Hin as (l1 & l2 & Hplayers & Hfirst).
  unfold after. rewrite (replace_player_run t r a l1 l2) by done. simpl.
  rewrite !wins_replace_in_match by done.
  split; [|split].
  - rewrite decide_False by done. by rewrite decide_True.
  - by rewrite decide_True.
  - intros p Hr Ha. rewrite wins_replace_in_match by done.
    by rewrite !decide_False.
Qed.

Lemma replace_player_wins_witness :
  wins 4%N
    (Tournament.matches
       (after (Tournament.replace_player (Some (player_with_id 1%N))
                 (Some (player_with_id 4%N)))
          (tournament_of [1%N; 4%N; 2%N]
             [Match.Build 1%N 2%N; Match.Build 4%N 2%N; Match.Build 2%N 1%N])))
  = wins 1%N [Match.Build 1%N 2%N; Match.Build 4%N 2%N; Match.Build 2%N 1%N]
    + wins 4%N [Match.Build 1%N 2%N; Match.Build 4%N 2%N; Match.Build 2%N 1%N].
Proof.
  apply (replace_player_wins
           (tournament_of [1%N; 4%N; 2%N]
              [Match.Build 1%N 2%N; Match.Build 4%N 2%N; Match.Build 2%N 1%N])
           (player_with_id 1%N) (player_with_id 4%N)).
  - simpl. rewrite !elem_of_cons. auto.
  - simpl. discriminate.
Defined.

(** ** PendingTournament: how the mapping operations compose *)

Lemma with_alias_to_id_map_twice (v w : option (list AliasMapping.t))
    (p : PendingTournament.t) :
  PendingTournament.with_alias_to_id_map v
    (PendingTournament.with_alias_to_id_map w p)
  = PendingTournament.with_alias_to_id_map v p.
Proof. reflexivity. Qed.

Lemma delete_alias_id_mapping_existing (p : PendingTournament.t)
    (alias : string) (l1 l2 : list AliasMapping.t) (mapping : AliasMapping.t) :
  entries p = l1 ++ mapping :: l2 ->
  ~ has_entry l1 alias ->
  AliasMapping.player_alias mapping = alias ->
  PendingTournament.delete_alias_id_mapping alias p
  = (Return (Some mapping),
     PendingTournament.with_alias_to_id_map (Some (l1 ++ l2)) p, []).
Proof.
  intros Hentries Hbefore Halias.
  rewrite delete_alias_id_mapping_run, Hentries.
  rewrite first_where_middle by (done || by apply not_has_entry).
  rewrite remove_first; [done|].
  intros Hin. apply Hbefore. by exists mapping.
Qed.

Lemma delete_alias_id_mapping_missing (p : PendingTournament.t)
    (alias : string) :
  ~ has_entry (entries p) alias ->
  PendingTournament.delete_alias_id_mapping alias p
  = (Return None,
     PendingTournament.with_alias_to_id_map (Some (entries p)) p, []).
Proof.
  intros Hnone. rewrite delete_alias_id_mapping_run.
  by rewrite first_where_None by by apply not_has_entry.
Qed.

(** The list of mappings splits around the first mapping for [alias], or
    has none. *)
Lemma entries_cases (p : PendingTournament.t) (alias : string) :
  (exists l1 mapping l2,
      entries p = l1 ++ mapping :: l2
      /\ ~ has_entry l1 alias
      /\ AliasMapping.player_alias mapping = alias)
  \/ ~ has_entry (entries p) alias.
Proof.
  destruct (first_where_cases
              (fun mapping => AliasMapping.player_alias mapping = alias)
              (entries p))
    as [(l1 & mapping & l2 & Hentries & Hbefore & Halias & _) | [Hnone _]].
  - left. exists l1, mapping, l2. split; [done|].
    split; [by apply not_has_entry | done].
  - right. by apply not_has_entry.
Qed.

(** Setting the same alias twice is setting it once, to the later id. *)
Theorem set_alias_id_mapping_twice (p : PendingTournament.t) (alias : string)
    (id1 id2 : option ObjectId) :
  after (PendingTournament.set_alias_id_mapping alias id2)
    (after (PendingTournament.set_alias_id_mapping alias id1) p)
  = after (PendingTournament.set_alias_id_mapping alias id2) p.
Proof.
  unfold after.
  destruct (entries_cases p alias)
    as [(l1 & mapping & l2 & Hentries & Hbefore & Halias) | Hnone].
  - rewrite (set_alias_id_mapping_existing p alias id1 l1 l2 mapping) by done.
    rewrite (set_alias_id_mapping_existing p alias id2 l1 l2 mapping) by done.
    cbn [fst snd].
    by rewrite (set_alias_id_mapping_existing _ alias id2 l1 l2
                  (AliasMapping.Build id1 alias)).
  - rewrite (set_alias_id_mapping_new p alias id1) by done.
    rewrite (set_alias_id_mapping_new p alias id2) by done.
    cbn [fst snd].
    by rewrite (set_alias_id_mapping_existing _ alias id2 (entries p) []
                  (AliasMapping.Build id1 alias)).
Qed.

(** A mapping set for an alias that had none is what a following delete
    returns, and the delete restores the earlier list. *)
Theorem set_then_delete (p : PendingTournament.t) (alias : string)
    (id : option ObjectId) :
  ~ has_entry (entries p) alias ->
  PendingTournament.delete_alias_id_mapping alias
    (after (PendingTournament.set_alias_id_mapping alias id) p)
  = (Return (Some (AliasMapping.Build id alias)),
     PendingTournament.with_alias_to_id_map (Some (entries p)) p, []).
Proof.
  intros Hnone. unfold after.
  rewrite (set_alias_id_mapping_new p alias id) by done. cbn [fst snd].
  rewrite (delete_alias_id_mapping_existing _ alias (entries p) []
             (AliasMapping.Build id alias)) by done.
  by rewrite app_nil_r.
Qed.

Lemma set_then_delete_witness :
  PendingTournament.delete_alias_id_mapping "bar"
    (after (PendingTournament.set_alias_id_mapping "bar" (Some 2%N))
       (pending_of [] [] (Some [AliasMapping.Build (Some 1%N) "foo"])))
  = (Return (Some (AliasMapping.Build (Some 2%N) "bar")),
     pending_of [] [] (Some [AliasMapping.Build (Some 1%N) "foo"]), []).
Proof.
  apply (set_then_delete
           (pending_of [] [] (Some [AliasMapping.Build (Some 1%N) "foo"]))
           "bar" (Some 2%N)).
  intros (mapping & Hin%list_elem_of_singleton & Halias).
  subst mapping. discriminate Halias.
Defined.

(** [delete_alias_id_mapping] never raises; it returns a mapping exactly
    when the list has one for the alias, the mapping returned is for that
    alias, and the list is then one mapping shorter. *)
Theorem delete_alias_id_mapping_returns (p : PendingTournament.t)
    (alias : string) :
  (exists r, result (PendingTournament.delete_alias_id_mapping alias) p
             = Return r)
  /\ ((exists mapping,
         result (PendingTournament.delete_alias_id_mapping alias) p
         = Return (Some mapping))
      <-> has_entry (entries p) alias)
  /\ (forall mapping,
        result (PendingTournament.delete_alias_id_mapping alias) p
        = Return (Some mapping) ->
        AliasMapping.player_alias mapping = alias
        /\ mapping ∈ entries p
        /\ S (length (entries
                        (after (PendingTournament.delete_alias_id_mapping alias)
                           p)))
           = length (entries p)).
Proof.
  unfold result, after.
  destruct (entries_cases p alias)
    as [(l1 & mapping & l2 & Hentries & Hbefore & Halias) | Hnone].
  - rewrite (delete_alias_id_mapping_existing p alias l1 l2 mapping) by done.
    cbn [fst snd]. split; [eauto|]. split.
    + split; [|eauto]. intros _. exists mapping. split; [|done].
      rewrite Hentries, elem_of_app, elem_of_cons. auto.
    + intros mapping' [= <-]. split; [done|].
      rewrite entries_with_alias_to_id_map, Hentries.
      split; [rewrite elem_of_app, elem_of_cons; auto|].
      rewrite !length_app. simpl. lia.
  - rewrite (delete_alias_id_mapping_missing p alias) by done.
    cbn [fst snd]. split; [eauto|]. split; [|done].
    split; [by intros [? ?] | done].
Qed.

Lemma delete_alias_id_mapping_returns_witness :
  AliasMapping.player_alias (AliasMapping.Build (Some 1%N) "foo") = "foo"
  /\ AliasMapping.Build (Some 1%N) "foo"
     ∈ entries (pending_of [] [] (Some [AliasMapping.Build (Some 1%N) "foo"])).
Proof.
  destruct (proj2 (proj2 (delete_alias_id_mapping_returns
                            (pending_of [] []
                               (Some [AliasMapping.Build (Some 1%N) "foo"]))
                            "foo"))
              (AliasMapping.Build (Some 1%N) "foo") eq_refl)
    as (Halias & Hin & _).
  split; [exact Halias | exact Hin].
Defined.

(** *** With at most one mapping per alias, the list is a dictionary *)

Lemma one_entry_inj (l : list AliasMapping.t) (x y : AliasMapping.t) :
  one_entry_per_alias l -> x ∈ l -> y ∈ l ->
  AliasMapping.player_alias x = AliasMapping.player_alias y -> x = y.
Proof.
  unfold one_entry_per_alias. induction l as [|z l IH]; simpl.
  { by intros _ ?%elem_of_nil. }
  intros [Hfresh Hnodup]%NoDup_cons Hx Hy Halias.
  apply elem_of_cons in Hx as [-> | Hx]; apply elem_of_cons in Hy as [-> | Hy].
  - done.
  - destruct Hfresh. rewrite Halias. apply list_elem_of_fmap. by exists y.
  - destruct Hfresh. rewrite <- Halias. apply list_elem_of_fmap. by exists x.
  - by apply IH.
Qed.

Lemma lookup_dict_one_entry (l : list AliasMapping.t) (alias : string)
    (player_id : ObjectId) :
  one_entry_per_alias l ->
  Py.dict (Tournament.assigned_pairs l) !! alias = Some player_id
  <-> AliasMapping.Build (Some player_id) alias ∈ l.
Proof.
  intros Hone. split.
  - intros (l1 & l2 & -> & _)%lookup_dict_Some.
    rewrite elem_of_app, elem_of_cons. auto.
  - intros Hin. pose proof (lookup_dict_assigned l alias) as Hlookup.
    destruct (Py.dict (Tournament.assigned_pairs l) !! alias) as [other|].
    + destruct Hlookup as (l1 & l2 & Hl & _).
      assert (AliasMapping.Build (Some other) alias ∈ l) as Hother.
      { rewrite Hl, elem_of_app, elem_of_cons. auto. }
      by pose proof (one_entry_inj l _ _ Hone Hin Hother eq_refl) as [= ->].
    + destruct Hlookup. by exists player_id.
Qed.

(** The mappings after an upsert, under the invariant. *)
Lemma elem_of_entries_after_set (p : PendingTournament.t) (alias : string)
    (id : option ObjectId) (m : AliasMapping.t) :
  one_entry_per_alias (entries p) ->
  m ∈ entries (after (PendingTournament.set_alias_id_mapping alias id) p)
  <-> m = AliasMapping.Build id alias
      \/ (m ∈ entries p /\ AliasMapping.player_alias m <> alias).
Proof.
  intros Hone. unfold after.
  destruct (entries_cases p alias)
    as [(l1 & mapping & l2 & Hentries & Hbefore & Halias) | Hnone].
  - rewrite (set_alias_id_mapping_existing p alias id l1 l2 mapping) by done.
    cbn [fst snd]. rewrite entries_with_alias_to_id_map.
    assert (forall x, x ∈ l1 ++ l2 -> AliasMapping.player_alias x <> alias)
      as Hothers.
    { intros x Hx Hxalias.
      assert (x ∈ entries p) as Hxin.
      { rewrite Hentries. rewrite elem_of_app in *. rewrite elem_of_cons. tauto. }
      assert (mapping ∈ entries p) as Hmin.
      { rewrite Hentries, elem_of_app, elem_of_cons. auto. }
      assert (x = mapping) as ->.
      { apply (one_entry_inj (entries p)); [done..|]. by rewrite Halias. }
      unfold one_entry_per_alias in Hone.
      rewrite Hentries, fmap_app, fmap_cons in Hone.
      apply NoDup_app in Hone as (_ & Hdisjoint & [Hfresh _]%NoDup_cons).
      apply elem_of_app in Hx as [Hx | Hx].
      - apply (Hdisjoint (AliasMapping.player_alias mapping)).
        + apply list_elem_of_fmap. by exists mapping.
        + by left.
      - apply Hfresh. apply list_elem_of_fmap. by exists mapping. }
    rewrite Hentries, !elem_of_app, !elem_of_cons. split.
    + intros [Hm | [-> | Hm]]; [right | by left | right].
      * split; [auto|]. apply Hothers. rewrite elem_of_app. auto.
      * split; [auto|]. apply Hothers. rewrite elem_of_app. auto.
    + intros [-> | [[Hm | [-> | Hm]] Hne]]; auto. done.
  - rewrite (set_alias_id_mapping_new p alias id) by done.
    cbn [fst snd]. rewrite entries_with_alias_to_id_map.
    rewrite elem_of_app, list_elem_of_singleton. split.
    + intros [Hm | ->]; [right | by left]. split; [done|].
      intros Hmalias. apply Hnone. by exists m.
    + intros [-> | [Hm _]]; auto.
Qed.

(** Under the invariant, an upsert is an insertion into the dictionary that
    promotion builds, and an upsert of [None] is a deletion from it. *)
Theorem set_alias_id_mapping_dict (p : PendingTournament.t) (alias : string)
    (id : option ObjectId) :
  one_entry_per_alias (entries p) ->
  Py.dict (Tournament.assigned_pairs
             (entries (after (PendingTournament.set_alias_id_mapping alias id) p)))
  = match id with
    | Some player_id =>
        <[alias := player_id]> (Py.dict (Tournament.assigned_pairs (entries p)))
    | None => delete alias (Py.dict (Tournament.assigned_pairs (entries p)))
    end.
Proof.
  intros Hone.
  pose proof (set_alias_id_mapping_one_entry p alias id Hone) as Hone'.
  apply map_eq. intros k. apply option_eq. intros v.
  rewrite (lookup_dict_one_entry _ k v Hone').
  rewrite elem_of_entries_after_set by done. simpl.
  destruct id as [player_id|].
  - rewrite lookup_insert_Some, (lookup_dict_one_entry _ k v Hone).
    split.
    + intros [[= -> ->] | [Hin Hne]]; [by left | by right].
    + intros [[-> ->] | [Hne Hin]]; [by left | by right].
  - rewrite lookup_delete_Some, (lookup_dict_one_entry _ k v Hone).
    split.
    + intros [[=] | [Hin Hne]]. done.
    + intros [Hne Hin]. by right.
Qed.

Lemma set_alias_id_mapping_dict_witness :
  Py.dict (Tournament.assigned_pairs
             (entries
                (after (PendingTournament.set_alias_id_mapping "foo" (Some 2%N))
                   (pending_of [] []
                      (Some [AliasMapping.Build (Some 1%N) "foo"])))))
  = <["foo" := 2%N]>
      (Py.dict (Tournament.assigned_pairs
                  (entries (pending_of [] []
                              (Some [AliasMapping.Build (Some 1%N) "foo"]))))).
Proof.
  apply (set_alias_id_mapping_dict
           (pending_of [] [] (Some [AliasMapping.Build (Some 1%N) "foo"]))
           "foo" (Some 2%N)).
  unfold one_entry_per_alias. simpl. apply NoDup_singleton.
Defined.

(** The mappings after a delete, under the invariant. *)
Lemma elem_of_entries_after_delete (p : PendingTournament.t) (alias : string)
    (m : AliasMapping.t) :
  one_entry_per_alias (entries p) ->
  m ∈ entries (after (PendingTournament.delete_alias_id_mapping alias) p)
  <-> m ∈ entries p /\ AliasMapping.player_alias m <> alias.
Proof.
  intros Hone. unfold after.
  destruct (entries_cases p alias)
    as [(l1 & mapping & l2 & Hentries & Hbefore & Halias) | Hnone].
  - rewrite (delete_alias_id_mapping_existing p alias l1 l2 mapping) by done.
    cbn [fst snd]. rewrite entries_with_alias_to_id_map.
    assert (mapping ∈ entries p) as Hmin.
    { rewrite Hentries, elem_of_app, elem_of_cons. auto. }
    assert (mapping ∉ l1 ++ l2) as Hgone.
    { unfold one_entry_per_alias in Hone.
      rewrite Hentries, fmap_app, fmap_cons in Hone.
      apply NoDup_app in Hone as (_ & Hdisjoint & [Hfresh _]%NoDup_cons).
      intros [Hx | Hx]%elem_of_app.
      - apply (Hdisjoint (AliasMapping.player_alias mapping)).
        + apply list_elem_of_fmap. by exists mapping.
        + by left.
      - apply Hfresh. apply list_elem_of_fmap. by exists mapping. }
    rewrite Hentries, !elem_of_app, elem_of_cons. split.
    + intros Hm. split; [tauto|]. intros Hmalias.
      assert (m = mapping) as ->.
      { apply (one_entry_inj (entries p)); [done| |done|by rewrite Halias].
        rewrite Hentries, elem_of_app, elem_of_cons. tauto. }
      apply Hgone. by rewrite elem_of_app.
    + intros [[Hm | [-> | Hm]] Hne]; auto. done.
  - rewrite (delete_alias_id_mapping_missing p alias) by done.
    cbn [fst snd]. rewrite entries_with_alias_to_id_map. split.
    + intros Hm. split; [done|]. intros Hmalias. apply Hnone. by exists m.
    + by intros [Hm _].
Qed.

Lemma delete_alias_id_mapping_one_entry (p : PendingTournament.t)
    (alias : string) :
  one_entry_per_alias (entries p) ->
  one_entry_per_alias
    (entries (after (PendingTournament.delete_alias_id_mapping alias) p)).
Proof.
  unfold one_entry_per_alias, after. intros Hone.
  destruct (entries_cases p alias)
    as [(l1 & mapping & l2 & Hentries & Hbefore & Halias) | Hnone].
  - rewrite (delete_alias_id_mapping_existing p alias l1 l2 mapping) by done.
    cbn [fst snd]. rewrite entries_with_alias_to_id_map.
    rewrite Hentries, fmap_app, fmap_cons in Hone. rewrite fmap_app.
    apply NoDup_app in Hone as (Hl1 & Hdisjoint & [_ Hl2]%NoDup_cons).
    apply NoDup_app. split; [done|]. split; [|done].
    intros a Ha Ha'. apply (Hdisjoint a Ha). by right.
  - by rewrite (delete_alias_id_mapping_missing p alias) by done.
Qed.

(** Under the invariant, a delete leaves no mapping for the alias, keeps the
    invariant, and is a deletion from the dictionary that promotion builds. *)
Theorem delete_alias_id_mapping_dict (p : PendingTournament.t)
    (alias : string) :
  one_entry_per_alias (entries p) ->
  let p' := after (PendingTournament.delete_alias_id_mapping alias) p in
  ~ has_entry (entries p') alias
  /\ one_entry_per_alias (entries p')
  /\ Py.dict (Tournament.assigned_pairs (entries p'))
     = delete alias (Py.dict (Tournament.assigned_pairs (entries p))).
Proof.
  intros Hone p'. subst p'.
  pose proof (delete_alias_id_mapping_one_entry p alias Hone) as Hone'.
  split; [|split; [done|]].
  - intros (m & Hm & Halias).
    apply elem_of_entries_after_delete in Hm as [_ Hne]; done.
  - apply map_eq. intros k. apply option_eq. intros v.
    rewrite (lookup_dict_one_entry _ k v Hone').
    rewrite elem_of_entries_after_delete by done. simpl.
    rewrite lookup_delete_Some, (lookup_dict_one_entry _ k v Hone).
    split; intros [? ?]; done.
Qed.

Lemma delete_alias_id_mapping_dict_witness :
  ~ has_entry
      (entries
         (after (PendingTournament.delete_alias_id_mapping "foo")
            (pending_of [] [] (Some [AliasMapping.Build (Some 1%N) "foo"]))))
      "foo".
Proof.
  apply (delete_alias_id_mapping_dict
           (pending_of [] [] (Some [AliasMapping.Build (Some 1%N) "foo"]))
           "foo").
  unfold one_entry_per_alias. simpl. apply NoDup_singleton.
Defined.

(** ** Promotion, exactly *)

Lemma first_missing_app (d : gmap string ObjectId) (l1 l2 : list string) :
  first_missing d (l1 ++ l2)
  = match first_missing d l1 with
    | Some alias => Some alias
    | None => first_missing d l2
    end.
Proof.
  induction l1 as [|alias l1 IH]; simpl; [done|].
  by destruct (d !! alias).
Qed.

Lemma first_missing_Some (d : gmap string ObjectId) (l : list string)
    (alias : string) :
  first_missing d l = Some alias <->
  exists l1 l2,
    l = l1 ++ alias :: l2
    /\ (forall x, x ∈ l1 -> is_Some (d !! x))
    /\ d !! alias = None.
Proof.
  induction l as [|x l IH]; simpl.
  { split; [done|]. intros (l1 & l2 & Hl & _). by destruct l1. }
  destruct (d !! x) as [v|] eqn:Hx.
  - rewrite IH. split.
    + intros (l1 & l2 & -> & Hall & Hnone). exists (x :: l1), l2.
      split; [done|]. split; [|done].
      intros y [-> | Hy]%elem_of_cons; [eauto | by apply Hall].
    + intros (l1 & l2 & Hl & Hall & Hnone). destruct l1 as [|y l1].
      * simpl in Hl. injection Hl as -> ->. congruence.
      * simpl in Hl. injection Hl as -> ->. exists l1, l2.
        split; [done|]. split; [|done].
        intros z Hz. apply Hall. by right.
  - split.
    + intros [= <-]. exists [], l. split; [done|]. split; [|done].
      by intros y ?%elem_of_nil.
    + intros (l1 & l2 & Hl & Hall & Hnone). destruct l1 as [|y l1].
      * simpl in Hl. by injection Hl as -> ->.
      * simpl in Hl. injection Hl as -> ->.
        destruct (Hall y) as [v Hv]; [by left|]. congruence.
Qed.

Lemma first_missing_None (d : gmap string ObjectId) (l : list string) :
  first_missing d l = None <-> forall x, x ∈ l -> is_Some (d !! x).
Proof.
  induction l as [|x l IH]; simpl.
  { split; [|done]. by intros _ y ?%elem_of_nil. }
  destruct (d !! x) as [v|] eqn:Hx.
  - rewrite IH. split.
    + intros Hall y [-> | Hy]%elem_of_cons; [eauto | by apply Hall].
    + intros Hall y Hy. apply Hall. by right.
  - split; [done|]. intros Hall.
    destruct (Hall x) as [v Hv]; [by left|]. congruence.
Qed.

(** The two loops of promotion, as functions of the dictionary. *)
Lemma for_each_get_player_id {St} (pairs : list (string * ObjectId))
    (l : list string) (s : St) :
  for_each (Tournament._get_player_id_from_map_or_throw pairs) l s
  = match first_missing (Py.dict pairs) l with
    | Some alias => (Raise (ValueError_no_id alias pairs), s, [])
    | None =>
        (Return ((fun alias => default 0%N (Py.dict pairs !! alias)) <$> l),
         s, [])
    end.
Proof.
  induction l as [|alias l IH]; simpl; [done|].
  unfold bind, Tournament._get_player_id_from_map_or_throw at 1.
  destruct (Py.dict pairs !! alias) as [v|]; simpl; [|done].
  rewrite IH. by destruct (first_missing (Py.dict pairs) l).
Qed.

Lemma for_each_resolve_match {St} (pairs : list (string * ObjectId))
    (l : list AliasMatch.t) (s : St) :
  for_each (Tournament.resolve_match pairs) l s
  = match first_missing (Py.dict pairs)
            (mjoin ((fun am => [AliasMatch.winner am; AliasMatch.loser am])
                      <$> l)) with
    | Some alias => (Raise (ValueError_no_id alias pairs), s, [])
    | None =>
        (Return
           ((fun am =>
               {| Match.winner :=
                    default 0%N (Py.dict pairs !! AliasMatch.winner am);
                  Match.loser :=
                    default 0%N (Py.dict pairs !! AliasMatch.loser am) |})
              <$> l), s, [])
    end.
Proof.
  induction l as [|am l IH]; simpl; [done|].
  unfold bind, Tournament.resolve_match at 1, bind,
    Tournament._get_player_id_from_map_or_throw.
  destruct (Py.dict pairs !! AliasMatch.winner am) as [w|]; simpl; [|done].
  destruct (Py.dict pairs !! AliasMatch.loser am) as [lo|]; simpl; [|done].
  rewrite IH. by destruct (first_missing (Py.dict pairs) _).
Qed.

Lemma from_pending_tournament_exact (p : PendingTournament.t)
    (l : list AliasMapping.t) :
  PendingTournament.alias_to_id_map p = Some l ->
  Tournament.from_pending_tournament p
  = (match first_missing (Py.dict (Tournament.assigned_pairs l))
             (aliases_of p) with
     | Some alias => Raise (ValueError_no_id alias (Tournament.assigned_pairs l))
     | None =>
         if validate_choices SOURCE_TYPE_CHOICES (PendingTournament.type p)
         then Return (promoted (Py.dict (Tournament.assigned_pairs l)) p)
         else Raise (ValidationError "type" (PendingTournament.type p))
     end,
     p,
     [Line_pending (PendingTournament.players p)
                   (PendingTournament.matches p)]).
Proof.
  intros Hmap.
  unfold Tournament.from_pending_tournament, bind, get, iter, print.
  rewrite Hmap. unfold ret. cbv beta iota zeta.
  rewrite for_each_get_player_id. unfold aliases_of.
  rewrite first_missing_app.
  destruct (first_missing _ (PendingTournament.players p)); [done|].
  rewrite for_each_resolve_match.
  destruct (first_missing _ _); [done|].
  unfold Tournament.new. cbn [Tournament.type].
  by destruct (validate_choices _ _).
Qed.

(** The error names the first alias, in the order players, then each match's
    winner and loser, that has no mapping with an id. *)
Theorem from_pending_tournament_first_unresolved (p : PendingTournament.t)
    (l : list AliasMapping.t) (l1 l2 : list string) (alias : string) :
  PendingTournament.alias_to_id_map p = Some l ->
  aliases_of p = l1 ++ alias :: l2 ->
  (forall x, x ∈ l1 -> has_assigned_id l x) ->
  ~ has_assigned_id l alias ->
  Tournament.from_pending_tournament p
  = (Raise (ValueError_no_id alias (Tournament.assigned_pairs l)),
     p,
     [Line_pending (PendingTournament.players p)
                   (PendingTournament.matches p)]).
Proof.
  intros Hmap Haliases Hbefore Hnone.
  rewrite (from_pending_tournament_exact p l Hmap).
  assert (first_missing (Py.dict (Tournament.assigned_pairs l)) (aliases_of p)
          = Some alias) as ->; [|done].
  apply first_missing_Some. exists l1, l2. split; [done|]. split.
  - intros x Hx. by apply lookup_dict_is_Some, Hbefore.
  - by apply lookup_dict_None_iff.
Qed.

Lemma from_pending_tournament_first_unresolved_witness :
  Tournament.from_pending_tournament
    (pending_of ["a"; "b"; "c"] []
       (Some [AliasMapping.Build (Some 1%N) "a"]))
  = (Raise (ValueError_no_id "b"
              (Tournament.assigned_pairs [AliasMapping.Build (Some 1%N) "a"])),
     pending_of ["a"; "b"; "c"] [] (Some [AliasMapping.Build (Some 1%N) "a"]),
     [Line_pending ["a"; "b"; "c"] []]).
Proof.
  apply (from_pending_tournament_first_unresolved
           (pending_of ["a"; "b"; "c"] []
              (Some [AliasMapping.Build (Some 1%N) "a"]))
           [AliasMapping.Build (Some 1%N) "a"] ["a"] ["c"] "b");
    [reflexivity | reflexivity | |].
  - intros x Hx%list_elem_of_singleton. subst x. exists 1%N.
    by apply list_elem_of_singleton.
  - intros (player_id & Hin%list_elem_of_singleton). discriminate Hin.
Defined.

Lemma from_pending_tournament_Return (p : PendingTournament.t)
    (t : Tournament.t) :
  result Tournament.from_pending_tournament p = Return t ->
  exists l,
    PendingTournament.alias_to_id_map p = Some l
    /\ t = promoted (Py.dict (Tournament.assigned_pairs l)) p
    /\ first_missing (Py.dict (Tournament.assigned_pairs l)) (aliases_of p)
       = None
    /\ PendingTournament.type p ∈ SOURCE_TYPE_CHOICES.
Proof.
  unfold result. destruct (PendingTournament.alias_to_id_map p) as [l|] eqn:Hmap.
  - rewrite (from_pending_tournament_exact p l Hmap). cbn [fst snd].
    destruct (first_missing _ _) eqn:Hfirst; [done|].
    unfold validate_choices. case_bool_decide as Htype; [|done].
    intros [= <-]. by exists l.
  - unfold Tournament.from_pending_tournament, bind, get, iter.
    rewrite Hmap. done.
Qed.

(** When every match of the pending tournament is between aliases of its
    players list, every match of the promoted tournament is between ids of
    its players list. *)
Theorem from_pending_tournament_participants_listed (p : PendingTournament.t)
    (t : Tournament.t) :
  result Tournament.from_pending_tournament p = Return t ->
  (forall am, am ∈ PendingTournament.matches p ->
     AliasMatch.winner am ∈ PendingTournament.players p
     /\ AliasMatch.loser am ∈ PendingTournament.players p) ->
  participants_listed t.
Proof.
  intros (l & _ & -> & _)%from_pending_tournament_Return Hlisted.
  intros m (am & -> & Ham)%list_elem_of_fmap. simpl.
  destruct (Hlisted am Ham) as [Hw Hl].
  split; apply list_elem_of_fmap; eauto.
Qed.

Lemma from_pending_tournament_participants_listed_witness :
  participants_listed
    (promoted (Py.dict (Tournament.assigned_pairs
                          [AliasMapping.Build (Some 1%N) "a"]))
       (pending_of ["a"] [AliasMatch.Build "a" "a"]
          (Some [AliasMapping.Build (Some 1%N) "a"]))).
Proof.
  apply (from_pending_tournament_participants_listed
           (pending_of ["a"] [AliasMatch.Build "a" "a"]
              (Some [AliasMapping.Build (Some 1%N) "a"]))).
  - reflexivity.
  - intros am Ham%list_elem_of_singleton. subst am. simpl.
    split; by apply list_elem_of_singleton.
Defined.

(** A promoted tournament has the id, name, type, date, regions, url and raw
    text of the pending one, as many players and matches, and [orig_ids]
    equal to [players]. Its type is one of the source types. *)
Theorem from_pending_tournament_fields (p : PendingTournament.t)
    (t : Tournament.t) :
  result Tournament.from_pending_tournament p = Return t ->
  Tournament.id t = PendingTournament.id p
  /\ Tournament.name t = PendingTournament.name p
  /\ Tournament.type t = PendingTournament.type p
  /\ Tournament.date t = PendingTournament.date p
  /\ Tournament.regions t = PendingTournament.regions p
  /\ Tournament.url t = PendingTournament.url p
  /\ Tournament.raw t = PendingTournament.raw p
  /\ length (Tournament.players t) = length (PendingTournament.players p)
  /\ length (Tournament.matches t) = length (PendingTournament.matches p)
  /\ Tournament.orig_ids t = Tournament.players t
  /\ Tournament.type t ∈ SOURCE_TYPE_CHOICES.
Proof.
  intros (l & _ & -> & _ & Htype)%from_pending_tournament_Return. simpl.
  by rewrite !length_fmap.
Qed.

Lemma from_pending_tournament_fields_witness :
  Tournament.id
    (promoted (Py.dict (Tournament.assigned_pairs
                          [AliasMapping.Build (Some 1%N) "a"]))
       (pending_of ["a"] [] (Some [AliasMapping.Build (Some 1%N) "a"])))
  = 0%N.
Proof.
  apply (from_pending_tournament_fields
           (pending_of ["a"] [] (Some [AliasMapping.Build (Some 1%N) "a"]))).
  reflexivity.
Defined.

(** ** Promotion after scraping and after the mapping operations *)

(** A pending tournament as [from_scraper] builds it has no list of mappings
    yet, and promoting it raises on that before anything is printed or
    looked up, whatever the scraper returned. *)
Theorem from_scraper_not_promotable (fresh : ObjectId) (type name : string)
    (date : option datetime) (url raw : option string)
    (players : list string) (matches : list AliasMatch.t) (region : string) :
  let p := PendingTournament.from_scraper fresh type name date url raw
             players matches region in
  Tournament.from_pending_tournament p = (Raise TypeError_not_iterable, p, []).
Proof. reflexivity. Qed.

Lemma alias_to_id_map_after_set (p : PendingTournament.t) (alias : string)
    (id : option ObjectId) :
  let p' := after (PendingTournament.set_alias_id_mapping alias id) p in
  PendingTournament.alias_to_id_map p' = Some (entries p')
  /\ PendingTournament.players p' = PendingTournament.players p
  /\ PendingTournament.matches p' = PendingTournament.matches p.
Proof.
  simpl. unfold after. by rewrite set_alias_id_mapping_run.
Qed.

Lemma alias_to_id_map_after_delete (p : PendingTournament.t) (alias : string) :
  let p' := after (PendingTournament.delete_alias_id_mapping alias) p in
  PendingTournament.alias_to_id_map p' = Some (entries p')
  /\ PendingTournament.players p' = PendingTournament.players p
  /\ PendingTournament.matches p' = PendingTournament.matches p.
Proof.
  simpl. unfold after. rewrite delete_alias_id_mapping_run.
  destruct (Py.first_where _ _) as [[i mapping]|]; [|done].
  by destruct (Py.remove _ _).
Qed.

Lemma from_pending_tournament_with_list (p : PendingTournament.t)
    (l : list AliasMapping.t) :
  PendingTournament.alias_to_id_map p = Some l ->
  (exists t, result Tournament.from_pending_tournament p = Return t)
  \/ (exists alias pairs,
        result Tournament.from_pending_tournament p
        = Raise (ValueError_no_id alias pairs))
  \/ result Tournament.from_pending_tournament p
     = Raise (ValidationError "type" (PendingTournament.type p)).
Proof.
  intros Hmap. unfold result.
  rewrite (from_pending_tournament_exact p l Hmap). cbn [fst snd].
  destruct (first_missing _ _); [eauto|].
  destruct (validate_choices _ _); eauto.
Qed.

Lemma type_after_maintenance (p : PendingTournament.t) (alias : string)
    (id : option ObjectId) :
  PendingTournament.type
    (after (PendingTournament.set_alias_id_mapping alias id) p)
  = PendingTournament.type p
  /\ PendingTournament.type
       (after (PendingTournament.delete_alias_id_mapping alias) p)
     = PendingTournament.type p.
Proof.
  unfold after. rewrite set_alias_id_mapping_run, delete_alias_id_mapping_run.
  split; [done|].
  destruct (Py.first_where _ _) as [[i mapping]|]; [|done].
  by destruct (Py.remove _ _).
Qed.

(** Once a mapping has been set or deleted, the list of mappings exists:
    promotion then returns a tournament, or raises the [ValueError] for an
    alias, or has the constructor refuse the type; it never raises the error
    of the missing list. *)
Theorem from_pending_tournament_after_maintenance (p : PendingTournament.t)
    (alias : string) (id : option ObjectId) :
  ((exists t,
       result Tournament.from_pending_tournament
         (after (PendingTournament.set_alias_id_mapping alias id) p)
       = Return t)
   \/ (exists missing pairs,
         result Tournament.from_pending_tournament
           (after (PendingTournament.set_alias_id_mapping alias id) p)
         = Raise (ValueError_no_id missing pairs))
   \/ result Tournament.from_pending_tournament
        (after (PendingTournament.set_alias_id_mapping alias id) p)
      = Raise (ValidationError "type" (PendingTournament.type p)))
  /\ ((exists t,
         result Tournament.from_pending_tournament
           (after (PendingTournament.delete_alias_id_mapping alias) p)
         = Return t)
      \/ (exists missing pairs,
            result Tournament.from_pending_tournament
              (after (PendingTournament.delete_alias_id_mapping alias) p)
            = Raise (ValueError_no_id missing pairs))
      \/ result Tournament.from_pending_tournament
           (after (PendingTournament.delete_alias_id_mapping alias) p)
         = Raise (ValidationError "type" (PendingTournament.type p))).
Proof.
  destruct (type_after_maintenance p alias id) as [Hset Hdelete].
  split.
  - rewrite <- Hset. eapply from_pending_tournament_with_list.
    apply (alias_to_id_map_after_set p alias id).
  - rewrite <- Hdelete. eapply from_pending_tournament_with_list.
    apply (alias_to_id_map_after_delete p alias).
Qed.

Lemma assigned_pairs_filter (l : list AliasMapping.t) :
  Tournament.assigned_pairs
    (filter (fun m => is_Some (AliasMapping.player_id m)) l)
  = Tournament.assigned_pairs l.
Proof.
  unfold Tournament.assigned_pairs.
  induction l as [|m l IH]; [done|].
  rewrite filter_cons. destruct (AliasMapping.player_id m) as [i|] eqn:Hid.
  - rewrite decide_True by eauto. simpl. rewrite Hid. f_equal. exact IH.
  - rewrite decide_False by (by intros [? ?]). simpl. rewrite Hid. exact IH.
Qed.

Lemma from_pending_tournament_same_pairs (p : PendingTournament.t)
    (l l' : list AliasMapping.t) :
  Tournament.assigned_pairs l' = Tournament.assigned_pairs l ->
  result Tournament.from_pending_tournament
    (PendingTournament.with_alias_to_id_map (Some l') p)
  = result Tournament.from_pending_tournament
      (PendingTournament.with_alias_to_id_map (Some l) p).
Proof.
  intros Hpairs. unfold result.
  rewrite (from_pending_tournament_exact
             (PendingTournament.with_alias_to_id_map (Some l') p) l' eq_refl).
  rewrite (from_pending_tournament_exact
             (PendingTournament.with_alias_to_id_map (Some l) p) l eq_refl).
  cbn [fst snd]. rewrite Hpairs. reflexivity.
Qed.

(** Mappings without an id have no part in promotion: dropping them from
    the list changes neither the tournament returned nor the error raised. *)
Theorem from_pending_tournament_ignores_unassigned (p : PendingTournament.t)
    (l : list AliasMapping.t) :
  result Tournament.from_pending_tournament
    (PendingTournament.with_alias_to_id_map
       (Some (filter (fun m => is_Some (AliasMapping.player_id m)) l)) p)
  = result Tournament.from_pending_tournament
      (PendingTournament.with_alias_to_id_map (Some l) p).
Proof.
  apply from_pending_tournament_same_pairs. apply assigned_pairs_filter.
Qed.

(** Two lists of mappings that give the same dictionary give the same
    outcome of promotion, but for the order in which the message of the
    [ValueError] lists the dictionary. *)
Lemma from_pending_tournament_same_dict (p : PendingTournament.t)
    (l l' : list AliasMapping.t) :
  Py.dict (Tournament.assigned_pairs l') = Py.dict (Tournament.assigned_pairs l) ->
  let r' := result Tournament.from_pending_tournament
              (PendingTournament.with_alias_to_id_map (Some l') p) in
  let r := result Tournament.from_pending_tournament
             (PendingTournament.with_alias_to_id_map (Some l) p) in
  (forall t, r' = Return t <-> r = Return t)
  /\ (forall alias,
        r' = Raise (ValueError_no_id alias (Tournament.assigned_pairs l'))
        <-> r = Raise (ValueError_no_id alias (Tournament.assigned_pairs l)))
  /\ (forall e,
        (forall alias pairs, e <> ValueError_no_id alias pairs) ->
        r' = Raise e <-> r = Raise e).
Proof.
  intros Hdict r' r. subst r' r. unfold result.
  rewrite (from_pending_tournament_exact
             (PendingTournament.with_alias_to_id_map (Some l') p) l' eq_refl).
  rewrite (from_pending_tournament_exact
             (PendingTournament.with_alias_to_id_map (Some l) p) l eq_refl).
  cbn [fst snd]. rewrite Hdict.
  change (aliases_of (PendingTournament.with_alias_to_id_map (Some l') p))
    with (aliases_of (PendingTournament.with_alias_to_id_map (Some l) p)).
  destruct (first_missing _ _) as [missing|].
  - split; [done|]. split.
    + intros alias. split; intros [= ->]; done.
    + intros e Hother. split; intros [= <-];
        [destruct (Hother missing (Tournament.assigned_pairs l'))
        |destruct (Hother missing (Tournament.assigned_pairs l))]; done.
  - change (PendingTournament.type
              (PendingTournament.with_alias_to_id_map (Some l') p))
      with (PendingTournament.type
              (PendingTournament.with_alias_to_id_map (Some l) p)).
    change (promoted ?d (PendingTournament.with_alias_to_id_map (Some l') p))
      with (promoted d (PendingTournament.with_alias_to_id_map (Some l) p)).
    destruct (validate_choices _ _); (split; [done|]); split; done.
Qed.

(** With at most one mapping per alias, the order of the mappings has no
    part in promotion: the same tournament is returned, the [ValueError] is
    for the same alias, and the constructor refuses the same type. Only the
    dictionary that the message of the [ValueError] prints is built in the
    other order. *)
Theorem from_pending_tournament_order_independent (p : PendingTournament.t)
    (l l' : list AliasMapping.t) :
  one_entry_per_alias l ->
  l ≡ₚ l' ->
  let r' := result Tournament.from_pending_tournament
              (PendingTournament.with_alias_to_id_map (Some l') p) in
  let r := result Tournament.from_pending_tournament
             (PendingTournament.with_alias_to_id_map (Some l) p) in
  (forall t, r' = Return t <-> r = Return t)
  /\ (forall alias,
        r' = Raise (ValueError_no_id alias (Tournament.assigned_pairs l'))
        <-> r = Raise (ValueError_no_id alias (Tournament.assigned_pairs l)))
  /\ (forall e,
        (forall alias pairs, e <> ValueError_no_id alias pairs) ->
        r' = Raise e <-> r = Raise e)
  /\ Py.dict (Tournament.assigned_pairs l')
     = Py.dict (Tournament.assigned_pairs l).
Proof.
  intros Hone Hperm.
  assert (Py.dict (Tournament.assigned_pairs l')
          = Py.dict (Tournament.assigned_pairs l)) as Hdict.
  { assert (one_entry_per_alias l') as Hone'.
    { unfold one_entry_per_alias in *. by rewrite <- Hperm. }
    apply map_eq. intros k. apply option_eq. intros v.
    rewrite (lookup_dict_one_entry _ k v Hone'),
      (lookup_dict_one_entry _ k v Hone).
    by rewrite Hperm. }
  destruct (from_pending_tournament_same_dict p l l' Hdict)
    as (Hreturn & Hvalue & Hother).
  cbv zeta. split; [done|]. split; [done|]. split; done.
Qed.

Lemma from_pending_tournament_order_independent_witness :
  Py.dict (Tournament.assigned_pairs
             [AliasMapping.Build (Some 2%N) "b";
              AliasMapping.Build (Some 1%N) "a"])
  = Py.dict (Tournament.assigned_pairs
               [AliasMapping.Build (Some 1%N) "a";
                AliasMapping.Build (Some 2%N) "b"]).
Proof.
  apply (from_pending_tournament_order_independent
           (pending_of ["a"; "b"] [] None)
           [AliasMapping.Build (Some 1%N) "a"; AliasMapping.Build (Some 2%N) "b"]
           [AliasMapping.Build (Some 2%N) "b"; AliasMapping.Build (Some 1%N) "a"]).
  - unfold one_entry_per_alias. simpl.
    apply NoDup_cons. split; [|apply NoDup_singleton].
    intros Hin%list_elem_of_singleton. discriminate Hin.
  - apply Permutation_swap.
Defined.

Lemma aliases_of_after (p p' : PendingTournament.t) :
  PendingTournament.players p' = PendingTournament.players p ->
  PendingTournament.matches p' = PendingTournament.matches p ->
  aliases_of p' = aliases_of p.
Proof. unfold aliases_of. by intros -> ->. Qed.

(** Under the invariant, an id set for an alias is the id that promotion
    puts wherever the players list has that alias. *)
Theorem set_alias_id_mapping_then_promote (p : PendingTournament.t)
    (alias : string) (id : ObjectId) (t : Tournament.t) (i : nat) :
  one_entry_per_alias (entries p) ->
  result Tournament.from_pending_tournament
    (after (PendingTournament.set_alias_id_mapping alias (Some id)) p)
  = Return t ->
  PendingTournament.players p !! i = Some alias ->
  Tournament.players t !! i = Some id.
Proof.
  intros Hone Hreturn Hi.
  destruct (alias_to_id_map_after_set p alias (Some id))
    as (Hmap & Hplayers & _).
  apply from_pending_tournament_Return in Hreturn as (l & Hl & -> & _).
  rewrite Hmap in Hl. injection Hl as <-.
  unfold promoted. cbn [Tournament.players].
  rewrite list_lookup_fmap, Hplayers, Hi. cbn [fmap option_fmap option_map].
  f_equal.
  match goal with
  | |- default _ ?o = _ => assert (o = Some id) as ->; [|done]
  end.
  apply lookup_dict_one_entry.
  - by apply set_alias_id_mapping_one_entry.
  - apply elem_of_entries_after_set; [done|]. by left.
Qed.

Lemma set_alias_id_mapping_then_promote_witness :
  Tournament.players
    (promoted
       (Py.dict (Tournament.assigned_pairs [AliasMapping.Build (Some 7%N) "a"]))
       (pending_of ["a"] [] (Some [AliasMapping.Build (Some 7%N) "a"])))
    !! 0
  = Some 7%N.
Proof.
  apply (set_alias_id_mapping_then_promote
           (pending_of ["a"] [] (Some [AliasMapping.Build (Some 1%N) "a"]))
           "a" 7%N
           (promoted
              (Py.dict (Tournament.assigned_pairs
                          [AliasMapping.Build (Some 7%N) "a"]))
              (pending_of ["a"] [] (Some [AliasMapping.Build (Some 7%N) "a"])))
           0).
  - unfold one_entry_per_alias. simpl. apply NoDup_singleton.
  - reflexivity.
  - reflexivity.
Defined.

(** Under the invariant, deleting the mapping of an alias that the
    tournament uses makes promotion raise the [ValueError]. *)
Theorem delete_alias_id_mapping_then_promote (p : PendingTournament.t)
    (alias : string) :
  one_entry_per_alias (entries p) ->
  alias ∈ aliases_of p ->
  exists missing d,
    result Tournament.from_pending_tournament
      (after (PendingTournament.delete_alias_id_mapping alias) p)
    = Raise (ValueError_no_id missing d).
Proof.
  intros Hone Hused.
  destruct (alias_to_id_map_after_delete p alias)
    as (Hmap & Hplayers & Hmatches).
  unfold result. rewrite (from_pending_tournament_exact _ _ Hmap).
  cbn [fst snd]. rewrite (aliases_of_after _ _ Hplayers Hmatches).
  destruct (first_missing _ (aliases_of p)) as [missing|] eqn:Hfirst; [eauto|].
  exfalso. rewrite first_missing_None in Hfirst.
  destruct (Hfirst alias Hused) as [v Hv].
  apply lookup_dict_Some in Hv as (l1 & l2 & Hl & _).
  assert (AliasMapping.Build (Some v) alias
            ∈ entries (after (PendingTournament.delete_alias_id_mapping alias) p))
    as Hin.
  { rewrite Hl, elem_of_app, elem_of_cons. auto. }
  by apply elem_of_entries_after_delete in Hin as [_ Hne].
Qed.

Lemma delete_alias_id_mapping_then_promote_witness :
  exists missing d,
    result Tournament.from_pending_tournament
      (after (PendingTournament.delete_alias_id_mapping "a")
         (pending_of ["a"] [] (Some [AliasMapping.Build (Some 1%N) "a"])))
    = Raise (ValueError_no_id missing d).
Proof.
  apply (delete_alias_id_mapping_then_promote
           (pending_of ["a"] [] (Some [AliasMapping.Build (Some 1%N) "a"]))
           "a").
  - unfold one_entry_per_alias. simpl. apply NoDup_singleton.
  - unfold aliases_of. simpl. by apply list_elem_of_singleton.
Defined.

(** ** Promotion, then a replacement *)



